(** * ObjectAllocator: escape analysis and allocation rewriting

    A shallow embedding of [src/jit/objectalloc.h] and
    [src/jit/objectalloc.cpp]: the per-use escape classifier
    ([CanLclVarEscapeViaParentStack]), the connection-graph builder
    ([BuildConnGraph], [BuildConnGraphVisitor]), the closure computation
    ([ComputeReachableNodes]), the eligibility test
    ([CanAllocateLclVarOnStack]) and the rewriter ([MorphAllocObjNodes],
    [MorphAllocObjNodeIntoHelperCall], [MorphAllocObjNodeIntoStackAlloc]).

    Local-variable numbers are [nat] (they index [lvaTable]); sizes and
    flag words are [N] with the bit operations of the source; bit vectors
    are finite sets of local numbers. *)

From Stdlib Require Import NArith ZArith.
From stdpp Require Import base option list gmap sets sorting.

#[local] Set Warnings "-clear-no-such-hyp,-register-all".

Local Open Scope N_scope.
Local Open Scope nat_scope.

(** ** Outcomes

    The C++ either runs to completion, trips an [assert] (checked builds
    only), or steps outside defined behaviour (a null or out-of-range
    access).  [OutOfFuel] belongs to the model alone: it is what the
    bounded rendering of the [while] loop of [ComputeReachableNodes]
    gives when its bound is used up, and it is shown never to happen. *)
Inductive Result (A : Type) : Type :=
| Ok (a : A)
| AssertFailed
| Undefined
| OutOfFuel.
Arguments Ok {A} a.
Arguments AssertFailed {A}.
Arguments Undefined {A}.
Arguments OutOfFuel {A}.

Definition Result_bind {A B} (f : A → Result B) (m : Result A) : Result B :=
  match m with
  | Ok a => f a
  | AssertFailed => AssertFailed
  | Undefined => Undefined
  | OutOfFuel => OutOfFuel
  end.

#[global] Instance Result_mret : MRet Result := @Ok.
#[global] Instance Result_mbind : MBind Result := @Result_bind.

(** [assert(c)]: compiled only under [DEBUG]. *)
Definition jit_assert (DEBUG : bool) (c : bool) : Result unit :=
  if DEBUG then (if c then Ok tt else AssertFailed) else Ok tt.

(** Dereferencing a pointer that may be null. *)
Definition deref {A} (p : option A) : Result A :=
  match p with
  | Some a => Ok a
  | None => Undefined
  end.

(** ** Bit vectors

    Modelled from the spec: [BitVec] and [BitVecOps] (the bit-set
    implementation is declared outside the two files at hand).  A bit
    vector is "a set of slot ids"; the operations are the set operations
    their names and the comments of [ComputeReachableNodes] give them.
    [UninitVal] is the null representation, which holds no element. *)
Abbreviation BitVec := (gset nat).

Module BitVecOps.

(** [BitVecTraits]: the number of bits, [comp->lvaCount] at construction. *)
Definition BitVecTraits := nat.

Definition UninitVal : gset nat := ∅.
Definition MakeEmpty (env : BitVecTraits) : gset nat := ∅.
Definition MakeCopy (env : BitVecTraits) (bs : gset nat) : gset nat := bs.
Definition Assign (env : BitVecTraits) (lhs rhs : gset nat) : gset nat := rhs.
Definition AddElemD (env : BitVecTraits) (bs : gset nat) (i : nat) : gset nat :=
  bs ∪ {[ i ]}.
Definition RemoveElemD (env : BitVecTraits) (bs : gset nat) (i : nat) : gset nat :=
  bs ∖ {[ i ]}.
Definition UnionD (env : BitVecTraits) (bs1 bs2 : gset nat) : gset nat := bs1 ∪ bs2.
Definition DiffD (env : BitVecTraits) (bs1 bs2 : gset nat) : gset nat := bs1 ∖ bs2.
Definition IsMember (env : BitVecTraits) (bs : gset nat) (i : nat) : bool :=
  bool_decide (i ∈ bs).

(** [Iter]: the members of the vector it is built on, as they are at
    construction, in ascending order; [NextElem] hands them out one by
    one. *)
Definition Iter (env : BitVecTraits) (bs : gset nat) : list nat :=
  merge_sort Nat.le (elements bs).

End BitVecOps.
Import BitVecOps.

(** ** ComputeReachableNodes *)

(** Body of the inner [while (iterator.NextElem(&lclNum))] loop. *)
Definition ComputeReachableNodes_step (bitVecTraits : BitVecTraits)
    (adjacentNodes : list BitVec) (st : BitVec * BitVec) (lclNum : nat)
  : Result (BitVec * BitVec) :=
  let '(pointers, reachableNodes) := st in
  (* pointees = adjacentNodes[lclNum] *)
  adj ← deref (adjacentNodes !! lclNum);
  let pointees := Assign bitVecTraits UninitVal adj in
  (* pointees = pointees \ reachableLclVars *)
  let pointees := DiffD bitVecTraits pointees reachableNodes in
  (* pointers = pointers U pointees *)
  let pointers := UnionD bitVecTraits pointers pointees in
  (* reachableLclVars = reachableLclVars U pointees *)
  let reachableNodes := UnionD bitVecTraits reachableNodes pointees in
  (* pointers = pointers \ { lclNum } *)
  let pointers := RemoveElemD bitVecTraits pointers lclNum in
  Ok (pointers, reachableNodes).

(** The inner loop over the elements the iterator yields. *)
Fixpoint ComputeReachableNodes_inner (bitVecTraits : BitVecTraits)
    (adjacentNodes : list BitVec) (elems : list nat) (st : BitVec * BitVec)
  : Result (BitVec * BitVec) :=
  match elems with
  | [] => Ok st
  | lclNum :: rest =>
      st' ← ComputeReachableNodes_step bitVecTraits adjacentNodes st lclNum;
      ComputeReachableNodes_inner bitVecTraits adjacentNodes rest st'
  end.

(** The outer [while (doOneMoreIteration)] loop: one more round is made
    exactly when the iterator of the round yielded an element. *)
Fixpoint ComputeReachableNodes_loop (fuel : nat) (bitVecTraits : BitVecTraits)
    (adjacentNodes : list BitVec) (pointers reachableNodes : gset nat)
  : Result (gset nat) :=
  match fuel with
  | O => OutOfFuel
  | S fuel =>
      match Iter bitVecTraits pointers with
      | [] => Ok reachableNodes
      | elems =>
          '(pointers', reachableNodes') ←
            ComputeReachableNodes_inner bitVecTraits adjacentNodes elems
              (pointers, reachableNodes);
          ComputeReachableNodes_loop fuel bitVecTraits adjacentNodes
            pointers' reachableNodes'
      end
  end.

(** Termination measure of the outer loop: twice the pointees not reached
    yet, plus the size of the frontier. *)
Definition ComputeReachableNodes_measure (adjacentNodes : list BitVec)
    (pointers reachableNodes : gset nat) : nat :=
  2 * size (⋃ adjacentNodes ∖ reachableNodes) + size pointers.

(** [ComputeReachableNodes]; the result is the final [reachableNodes]
    (an in-out parameter in the source). *)
Definition ComputeReachableNodes (bitVecTraits : BitVecTraits)
    (adjacentNodes : list BitVec) (reachableNodes : gset nat) : Result (gset nat) :=
  let pointers := MakeCopy bitVecTraits reachableNodes in
  ComputeReachableNodes_loop
    (S (ComputeReachableNodes_measure adjacentNodes pointers reachableNodes))
    bitVecTraits adjacentNodes pointers reachableNodes.

(** [edge adjacentNodes a b]: [b] is recorded among the pointees of [a]. *)
Definition edge (adjacentNodes : list BitVec) (a b : nat) : Prop :=
  ∃ pointees : BitVec, adjacentNodes !! a = Some pointees ∧ b ∈ pointees.

(** A set of locals closed under the recorded edges. *)
Definition closed (adjacentNodes : list BitVec) (R : BitVec) : Prop :=
  ∀ a b, a ∈ R → edge adjacentNodes a b → b ∈ R.

(** Every member indexes the adjacency array. *)
Definition in_range (adjacentNodes : list BitVec) (R : BitVec) : Prop :=
  ∀ x, x ∈ R → x < length adjacentNodes.

(** What holds of the frontier [P] and the reached set [R] between two
    steps of [ComputeReachableNodes], for the seed [roots]. *)
Record crn_inv (adjacentNodes : list BitVec) (roots P R : BitVec) : Prop := {
  crn_roots : roots ⊆ R;
  crn_front : P ⊆ R;
  crn_done : ∀ a b, a ∈ R → a ∉ P → edge adjacentNodes a b → b ∈ R;
  crn_least : ∀ S : BitVec, roots ⊆ S → closed adjacentNodes S → R ⊆ S
}.

(** ** The IR the phase reads and rewrites

    Node operators, node types and the node classes are those the two
    files name; a node is a tree value, one constructor per node class. *)

Inductive var_types : Type :=
| TYP_UNDEF | TYP_VOID | TYP_BOOL | TYP_SHORT | TYP_INT | TYP_LONG
| TYP_FLOAT | TYP_DOUBLE | TYP_REF | TYP_BYREF | TYP_STRUCT.

#[global] Instance var_types_eq_dec : EqDecision var_types.
Proof. solve_decision. Defined.

Inductive genTreeOps : Type :=
| GT_NOP | GT_LCL_VAR | GT_CNS_INT | GT_ASG | GT_ADD | GT_EQ | GT_NE
| GT_IND | GT_FIELD | GT_ADDR | GT_CALL | GT_ALLOCOBJ | GT_BLK
| GT_COMMA | GT_RETURN | GT_CAST.

#[global] Instance genTreeOps_eq_dec : EqDecision genTreeOps.
Proof. solve_decision. Defined.

Inductive gtCallTypes : Type := CT_USER_FUNC | CT_HELPER | CT_INDIRECT.

Definition CORINFO_CLASS_HANDLE := nat.
Definition CORINFO_METHOD_HANDLE := nat.
Definition CorInfoHelpFunc := nat.

Inductive GenTree : Type :=
| GenTreeLclVar (gtType : var_types) (gtFlags : N) (gtLclNum : nat)
| GenTreeIntCon (gtType : var_types) (gtFlags : N) (gtIconVal : Z)
| GenTreeOp (gtOper : genTreeOps) (gtType : var_types) (gtFlags : N)
    (gtOp1 gtOp2 : option GenTree)
| GenTreeField (gtType : var_types) (gtFlags : N) (gtFldObj : option GenTree)
    (gtFldOffset : N)
| GenTreeCall (gtType : var_types) (gtFlags : N) (gtCallType : gtCallTypes)
    (gtCallMethHnd : CORINFO_METHOD_HANDLE) (gtCallMoreFlags : N)
    (gtCallObjp : option GenTree) (gtCallArgs : list GenTree)
| GenTreeAllocObj (gtType : var_types) (gtFlags : N) (gtNewHelper : CorInfoHelpFunc)
    (gtAllocObjClsHnd : CORINFO_CLASS_HANDLE) (gtOp1 : GenTree)
| GenTreeBlk (gtType : var_types) (gtFlags : N) (dst srcOrFillVal : GenTree)
    (gtBlkSize : N) (isVolatile isCopyBlock : bool).

Definition OperGet (tree : GenTree) : genTreeOps :=
  match tree with
  | GenTreeLclVar _ _ _ => GT_LCL_VAR
  | GenTreeIntCon _ _ _ => GT_CNS_INT
  | GenTreeOp oper _ _ _ _ => oper
  | GenTreeField _ _ _ _ => GT_FIELD
  | GenTreeCall _ _ _ _ _ _ _ => GT_CALL
  | GenTreeAllocObj _ _ _ _ _ => GT_ALLOCOBJ
  | GenTreeBlk _ _ _ _ _ _ _ => GT_BLK
  end.

Definition OperIs (tree : GenTree) (oper : genTreeOps) : bool :=
  bool_decide (OperGet tree = oper).

Definition TypeGet (tree : GenTree) : var_types :=
  match tree with
  | GenTreeLclVar ty _ _ | GenTreeIntCon ty _ _ | GenTreeOp _ ty _ _ _
  | GenTreeField ty _ _ _ | GenTreeCall ty _ _ _ _ _ _
  | GenTreeAllocObj ty _ _ _ _ | GenTreeBlk ty _ _ _ _ _ _ => ty
  end.

Definition gtFlagsOf (tree : GenTree) : N :=
  match tree with
  | GenTreeLclVar _ fl _ | GenTreeIntCon _ fl _ | GenTreeOp _ _ fl _ _
  | GenTreeField _ fl _ _ | GenTreeCall _ fl _ _ _ _ _
  | GenTreeAllocObj _ fl _ _ _ | GenTreeBlk _ fl _ _ _ _ _ => fl
  end.

(** [gtGetOp1], [gtGetOp2]: the operand pointers of a unary or binary
    operator node; [None] is the null pointer. *)
Definition gtGetOp1 (tree : GenTree) : option GenTree :=
  match tree with
  | GenTreeOp _ _ _ op1 _ => op1
  | GenTreeAllocObj _ _ _ _ op1 => Some op1
  | _ => None
  end.

Definition gtGetOp2 (tree : GenTree) : option GenTree :=
  match tree with
  | GenTreeOp _ _ _ _ op2 => op2
  | _ => None
  end.

(** [AsLclVar()->GetLclNum()]: reading the local number of a node that is
    not a local-variable node has no defined result. *)
Definition GetLclNum (tree : GenTree) : Result nat :=
  match tree with
  | GenTreeLclVar _ _ lclNum => Ok lclNum
  | _ => Undefined
  end.

(** Modelled from the spec: [Compiler::gtGetThisArg], defined outside the
    two files; "the invocation's receiver argument" of a call node. *)
Definition gtGetThisArg (call : GenTree) : option GenTree :=
  match call with
  | GenTreeCall _ _ _ _ _ objp _ => objp
  | _ => None
  end.

(** Modelled from the spec: [ArrayStack], the ancestor stack the tree
    walker keeps.  [Index 0] is the node being visited, [Index 1] its
    parent, [Index 2] its grandparent; an index at or above [Height] is
    outside the stack. *)
Definition ArrayStack (T : Type) := list T.
Definition Push {T} (x : T) (s : ArrayStack T) : ArrayStack T := x :: s.
Definition Height {T} (s : ArrayStack T) : nat := length s.
Definition Index {T} (s : ArrayStack T) (idx : nat) : Result T := deref (s !! idx).

(** The field through which the walker reached a node ([GenTree** pTree]
    is the address of that field).  Trees share no nodes, so a node is
    the [gtOp1] of its parent exactly when it was reached through the
    parent's [gtOp1] field. *)
Inductive UseEdge : Type :=
| UseStmtExpr | UseOp1 | UseOp2 | UseFldObj | UseCallObjp | UseCallArg (i : nat)
| UseBlkDst | UseBlkSrc.

#[global] Instance UseEdge_eq_dec : EqDecision UseEdge.
Proof. solve_decision. Defined.

Record fgWalkData : Type := {
  pTree : UseEdge;
  parentStack : ArrayStack GenTree
}.

(** [data->parent]: the user of the visited node, null at the root. *)
Definition parent (data : fgWalkData) : option GenTree := parentStack data !! 1.

(** ** What the phase takes from the rest of the JIT

    The build flavour, the target's native-int type, the flag masks, and
    the collaborators the phase calls (the EE interface, the helper
    table, the cycle detector, the node builders' flag handling and the
    global morpher) are declared outside the two files.  They are the
    fields of one record, and every definition below takes it as [J]. *)
Record JitHost : Type := {
  DEBUG : bool;
  TYP_I_IMPL : var_types;
  OMF_HAS_NEWOBJ : N;
  OMF_HAS_OBJSTACKALLOC : N;
  BBF_HAS_NEWOBJ : N;
  GTF_ALL_EFFECT : N;
  GTF_CALL_M_DELEGATE_INV : N;
  (* comp->info.compCompHnd *)
  classHasFinalizer : CORINFO_CLASS_HANDLE → bool;
  isValueClass : CORINFO_CLASS_HANDLE → bool;
  getClassSize : CORINFO_CLASS_HANDLE → N;
  getHeapClassSize : CORINFO_CLASS_HANDLE → N;
  getObjHeaderSize : N;
  (* helper calls *)
  eeGetHelperNum : CORINFO_METHOD_HANDLE → CorInfoHelpFunc;
  eeFindHelper : CorInfoHelpFunc → CORINFO_METHOD_HANDLE;
  IsPure : CorInfoHelpFunc → bool;
  (* TarjanStronglyConnectedComponents, after its DoAnalysis *)
  IsPartOfCycle : nat → bool;
  (* the size lvaSetStruct gives a local laid out as the class *)
  lvaStructSize : CORINFO_CLASS_HANDLE → N;
  (* the flag word GenTree::ChangeOper leaves on a node *)
  ChangeOperFlags : genTreeOps → N → N;
  (* Compiler::fgMorphBlockStmt and Compiler::fgMorphArgs, on the tree *)
  fgMorphBlockStmt : GenTree → GenTree;
  fgMorphArgs : GenTree → GenTree
}.

Definition assert (J : JitHost) (c : bool) : Result unit := jit_assert (DEBUG J) c.

(** ** CanLclVarEscapeViaParentStack *)

Definition CanLclVarEscapeViaParentStack (J : JitHost)
    (parentStack : ArrayStack GenTree) (lclNum : nat) : Result bool :=
  let canLclVarEscapeViaParentStack := true in
  if bool_decide (1 < Height parentStack) then
    parent ← Index parentStack 1;
    match OperGet parent with
    | GT_EQ | GT_NE | GT_IND =>
        Ok false (* Scenario (1) *)
    | GT_FIELD =>
        if bool_decide (2 < Height parentStack) then
          grandParent ← Index parentStack 2;
          Ok (bool_decide (OperGet grandParent = GT_ADDR)) (* Scenario (5) *)
        else Ok canLclVarEscapeViaParentStack
    | GT_ADD =>
        if bool_decide (2 < Height parentStack) then
          grandParent ← Index parentStack 2;
          match OperGet grandParent with
          | GT_IND => Ok false (* Scenario (2) *)
          | _ => Ok canLclVarEscapeViaParentStack
          end
        else Ok canLclVarEscapeViaParentStack
    | GT_CALL =>
        match parent with
        | GenTreeCall _ _ gtCallType gtCallMethHnd gtCallMoreFlags _ _ =>
            match gtCallType with
            | CT_HELPER =>
                let helperNum := eeGetHelperNum J gtCallMethHnd in
                if IsPure J helperNum
                then Ok false (* Scenario (3) *)
                else Ok canLclVarEscapeViaParentStack
            | CT_USER_FUNC =>
                (* Delegate invoke won't escape the delegate which is passed as "this" *)
                if negb (N.land gtCallMoreFlags (GTF_CALL_M_DELEGATE_INV J) =? 0)%N then
                  thisArg ← deref (gtGetThisArg parent);
                  match thisArg with
                  | GenTreeLclVar _ _ thisLclNum =>
                      if decide (thisLclNum = lclNum)
                      then Ok false (* Scenario (4) *)
                      else Ok canLclVarEscapeViaParentStack
                  | _ => Ok canLclVarEscapeViaParentStack
                  end
                else Ok canLclVarEscapeViaParentStack
            | _ => Ok canLclVarEscapeViaParentStack
            end
        | _ => Undefined (* AsCall() on a node that is no call *)
        end
    | _ => Ok canLclVarEscapeViaParentStack
    end
  else Ok canLclVarEscapeViaParentStack.

(** ** The connection graph *)

(** The state the visitor's callback data reaches: the adjacency array
    [m_connGraphPointees] and the caller's [m_EscapingPointers]. *)
Record BuildConnGraphVisitorCallbackData : Type := {
  m_connGraphPointees : list BitVec;
  m_EscapingPointers_cb : BitVec
}.

Definition MarkLclVarAsNonStackAlloc (bitVecTraits : BitVecTraits)
    (cb : BuildConnGraphVisitorCallbackData) (lclNum : nat)
  : BuildConnGraphVisitorCallbackData :=
  {| m_connGraphPointees := m_connGraphPointees cb;
     m_EscapingPointers_cb := AddElemD bitVecTraits (m_EscapingPointers_cb cb) lclNum |}.

Definition IsLclVarNonStackAlloc (bitVecTraits : BitVecTraits)
    (cb : BuildConnGraphVisitorCallbackData) (lclNum : nat) : bool :=
  IsMember bitVecTraits (m_EscapingPointers_cb cb) lclNum.

(** [m_connGraphPointees[pointerLclNum]] is an unchecked array access. *)
Definition SetPointerPointeeRel (bitVecTraits : BitVecTraits)
    (cb : BuildConnGraphVisitorCallbackData) (pointerLclNum pointeeLclNum : nat)
  : Result BuildConnGraphVisitorCallbackData :=
  pointees ← deref (m_connGraphPointees cb !! pointerLclNum);
  Ok {| m_connGraphPointees :=
          <[pointerLclNum := AddElemD bitVecTraits pointees pointeeLclNum]>
            (m_connGraphPointees cb);
        m_EscapingPointers_cb := m_EscapingPointers_cb cb |}.

(** ** BuildConnGraphVisitor *)

Definition BuildConnGraphVisitor (J : JitHost) (bitVecTraits : BitVecTraits)
    (tree : GenTree) (data : fgWalkData)
    (callbackData : BuildConnGraphVisitorCallbackData)
  : Result BuildConnGraphVisitorCallbackData :=
  if bool_decide (OperGet tree = GT_LCL_VAR) &&
     (bool_decide (TypeGet tree = TYP_REF) || bool_decide (TypeGet tree = TYP_I_IMPL J))
  then
    lclNum ← GetLclNum tree;
    parent ← deref (parent data);
    if bool_decide (OperGet parent = GT_ASG) then
      let op1 := gtGetOp1 parent in
      (* We don't do any analysis when lclVar on the lhs of GT_ASG node *)
      if negb (bool_decide (pTree data = UseOp1)) (* op1 != tree *) then
        (* lclVar is on the rhs of GT_ASG node *)
        _ ← assert J (bool_decide (pTree data = UseOp2));
        op1 ← deref op1;
        if bool_decide (OperGet op1 = GT_LCL_VAR) then
          pointerLclNum ← GetLclNum op1;
          let pointeeLclNum := lclNum in
          SetPointerPointeeRel bitVecTraits callbackData pointerLclNum pointeeLclNum
        else
          Ok (MarkLclVarAsNonStackAlloc bitVecTraits callbackData lclNum)
      else Ok callbackData
    else if bool_decide (OperGet parent = GT_ADD) then
      parent ← Index (parentStack data) 2;
      if bool_decide (OperGet parent = GT_ASG) then
        op1 ← deref (gtGetOp1 parent);
        if bool_decide (OperGet op1 = GT_LCL_VAR) then
          pointerLclNum ← GetLclNum op1;
          let pointeeLclNum := lclNum in
          SetPointerPointeeRel bitVecTraits callbackData pointerLclNum pointeeLclNum
        else Ok callbackData
      else
        escapes ← CanLclVarEscapeViaParentStack J (parentStack data) lclNum;
        if escapes : bool
        then Ok (MarkLclVarAsNonStackAlloc bitVecTraits callbackData lclNum)
        else Ok callbackData
    else
      escapes ← CanLclVarEscapeViaParentStack J (parentStack data) lclNum;
      if escapes : bool
      then Ok (MarkLclVarAsNonStackAlloc bitVecTraits callbackData lclNum)
      else Ok callbackData
  else Ok callbackData.

(** ** The tree walker

    Modelled from the spec: [Compiler::fgWalkTreePre] with
    [computeStack = true], "one full pre-order traversal ... maintaining
    the ancestor stack".  The visitors of this phase always answer
    [WALK_CONTINUE], so the walk never stops early. *)
Section Walk.
Context {S : Type} (visitor : GenTree → fgWalkData → S → Result S).

Fixpoint fgWalkTreePreRec (stack : ArrayStack GenTree) (use : UseEdge)
    (tree : GenTree) (s : S) {struct tree} : Result S :=
  let stack := Push tree stack in
  let walkOpt (use : UseEdge) (op : option GenTree) (s : S) : Result S :=
    match op with
    | Some t => fgWalkTreePreRec stack use t s
    | None => Ok s
    end in
  s ← visitor tree {| pTree := use; parentStack := stack |} s;
  match tree with
  | GenTreeLclVar _ _ _ | GenTreeIntCon _ _ _ => Ok s
  | GenTreeOp _ _ _ op1 op2 =>
      s ← walkOpt UseOp1 op1 s; walkOpt UseOp2 op2 s
  | GenTreeField _ _ obj _ => walkOpt UseFldObj obj s
  | GenTreeCall _ _ _ _ _ objp args =>
      s ← walkOpt UseCallObjp objp s;
      (fix walkArgs (args : list GenTree) (i : nat) (s : S) {struct args} : Result S :=
         match args with
         | [] => Ok s
         | arg :: args =>
             s ← fgWalkTreePreRec stack (UseCallArg i) arg s;
             walkArgs args (Datatypes.S i) s
         end) args 0 s
  | GenTreeAllocObj _ _ _ _ op1 => fgWalkTreePreRec stack UseOp1 op1 s
  | GenTreeBlk _ _ dst src _ _ _ =>
      s ← fgWalkTreePreRec stack UseBlkDst dst s;
      fgWalkTreePreRec stack UseBlkSrc src s
  end.

Definition fgWalkTreePre (stmtExpr : GenTree) (s : S) : Result S :=
  fgWalkTreePreRec [] UseStmtExpr stmtExpr s.

End Walk.

(** ** Locals, statements, blocks, the compiler and the phase object *)

Record LclVarDsc : Type := {
  lvType : var_types;
  lvAddrExposed : bool;
  lvClassHnd : option CORINFO_CLASS_HANDLE
}.

Record GenTreeStmt : Type := { gtStmtExpr : GenTree }.

Record BasicBlock : Type := {
  bbNum : nat;
  bbFlags : N;
  bbStmts : list GenTreeStmt
}.

Record Compiler : Type := {
  lvaTable : list LclVarDsc;
  optMethodFlags : N;
  fgBlocks : list BasicBlock
}.

Definition lvaCount (comp : Compiler) : nat := length (lvaTable comp).

Record ObjectAllocator : Type := {
  m_IsObjectStackAllocationEnabled : bool;
  m_AnalysisDone : bool;
  m_IsRunningAfterMorph : bool;
  m_bitVecTraits : BitVecTraits;
  m_EscapingPointers : BitVec
}.

(** The constructor. *)
Definition ObjectAllocator_new (comp : Compiler) (isAfterMorph : bool) : ObjectAllocator :=
  {| m_IsObjectStackAllocationEnabled := false;
     m_AnalysisDone := false;
     m_IsRunningAfterMorph := isAfterMorph;
     m_bitVecTraits := lvaCount comp;
     m_EscapingPointers := UninitVal |}.

Definition IsObjectStackAllocationEnabled (oa : ObjectAllocator) : bool :=
  m_IsObjectStackAllocationEnabled oa.

Definition EnableObjectStackAllocation (oa : ObjectAllocator) : ObjectAllocator :=
  {| m_IsObjectStackAllocationEnabled := true;
     m_AnalysisDone := m_AnalysisDone oa;
     m_IsRunningAfterMorph := m_IsRunningAfterMorph oa;
     m_bitVecTraits := m_bitVecTraits oa;
     m_EscapingPointers := m_EscapingPointers oa |}.

Definition IsRunningAfterMorph (oa : ObjectAllocator) : bool :=
  m_IsRunningAfterMorph oa.

(** ** BuildConnGraph *)

(** The first loop, over [lclNum = 0 .. lvaCount - 1]: the slots of the
    adjacency array, and the address-exposed locals marked on the way. *)
Fixpoint BuildConnGraph_locals (J : JitHost) (bitVecTraits : BitVecTraits)
    (lvaTable : list LclVarDsc) (lclNum : nat) (escaping : BitVec)
  : list BitVec * BitVec :=
  match lvaTable with
  | [] => ([], escaping)
  | dsc :: rest =>
      let type := lvType dsc in
      if bool_decide (type = TYP_REF) || bool_decide (type = TYP_I_IMPL J)
         || bool_decide (type = TYP_BYREF)
      then
        (* For such variable we maintain bit-set of pointees *)
        let escaping :=
          if lvAddrExposed dsc then AddElemD bitVecTraits escaping lclNum else escaping in
        let '(pointees, escaping) :=
          BuildConnGraph_locals J bitVecTraits rest (S lclNum) escaping in
        (MakeEmpty bitVecTraits :: pointees, escaping)
      else
        (* Other local variable will not participate in our analysis *)
        let '(pointees, escaping) :=
          BuildConnGraph_locals J bitVecTraits rest (S lclNum) escaping in
        (UninitVal :: pointees, escaping)
  end.

(** The statements of one block, then the blocks ([foreach_block]). *)
Fixpoint BuildConnGraph_stmts (J : JitHost) (bitVecTraits : BitVecTraits)
    (stmts : list GenTreeStmt) (callbackData : BuildConnGraphVisitorCallbackData)
  : Result BuildConnGraphVisitorCallbackData :=
  match stmts with
  | [] => Ok callbackData
  | stmt :: rest =>
      callbackData ← fgWalkTreePre (BuildConnGraphVisitor J bitVecTraits)
                       (gtStmtExpr stmt) callbackData;
      BuildConnGraph_stmts J bitVecTraits rest callbackData
  end.

Fixpoint BuildConnGraph_blocks (J : JitHost) (bitVecTraits : BitVecTraits)
    (blocks : list BasicBlock) (callbackData : BuildConnGraphVisitorCallbackData)
  : Result BuildConnGraphVisitorCallbackData :=
  match blocks with
  | [] => Ok callbackData
  | block :: rest =>
      callbackData ← BuildConnGraph_stmts J bitVecTraits (bbStmts block) callbackData;
      BuildConnGraph_blocks J bitVecTraits rest callbackData
  end.

(** [BuildConnGraph]: the adjacency array it hands back through
    [pConnGraphPointees], and the escaping set it has marked so far. *)
Definition BuildConnGraph (J : JitHost) (comp : Compiler) (oa : ObjectAllocator)
  : Result BuildConnGraphVisitorCallbackData :=
  let '(connGraphPointees, escaping) :=
    BuildConnGraph_locals J (m_bitVecTraits oa) (lvaTable comp) 0 (m_EscapingPointers oa) in
  BuildConnGraph_blocks J (m_bitVecTraits oa) (fgBlocks comp)
    {| m_connGraphPointees := connGraphPointees; m_EscapingPointers_cb := escaping |}.

(** ** DoAnalysis *)

(** A store to [m_EscapingPointers]. *)
Definition set_EscapingPointers (oa : ObjectAllocator) (escaping : BitVec)
  : ObjectAllocator :=
  {| m_IsObjectStackAllocationEnabled := m_IsObjectStackAllocationEnabled oa;
     m_AnalysisDone := m_AnalysisDone oa;
     m_IsRunningAfterMorph := m_IsRunningAfterMorph oa;
     m_bitVecTraits := m_bitVecTraits oa;
     m_EscapingPointers := escaping |}.

Definition DoAnalysis (J : JitHost) (comp : Compiler) (oa : ObjectAllocator)
  : Result ObjectAllocator :=
  _ ← assert J (m_IsObjectStackAllocationEnabled oa);
  _ ← assert J (negb (m_AnalysisDone oa));
  oa ←
    (if bool_decide (0 < lvaCount comp) then
       let oa := set_EscapingPointers oa (MakeEmpty (m_bitVecTraits oa)) in
       callbackData ← BuildConnGraph J comp oa;
       reachableNodes ←
         ComputeReachableNodes (m_bitVecTraits oa) (m_connGraphPointees callbackData)
           (m_EscapingPointers_cb callbackData);
       Ok (set_EscapingPointers oa reachableNodes)
     else Ok oa);
  Ok {| m_IsObjectStackAllocationEnabled := m_IsObjectStackAllocationEnabled oa;
        m_AnalysisDone := true;
        m_IsRunningAfterMorph := m_IsRunningAfterMorph oa;
        m_bitVecTraits := m_bitVecTraits oa;
        m_EscapingPointers := m_EscapingPointers oa |}.

(** ** Eligibility (objectalloc.h) *)

Definition s_StackAllocMaxSize : N := 0x2000.

Definition CanLclVarEscape (J : JitHost) (oa : ObjectAllocator) (lclNum : nat)
  : Result bool :=
  _ ← assert J (m_AnalysisDone oa);
  Ok (IsMember (m_bitVecTraits oa) (m_EscapingPointers oa) lclNum).

Definition CanAllocateLclVarOnStack (J : JitHost) (oa : ObjectAllocator)
    (lclNum : nat) (clsHnd : CORINFO_CLASS_HANDLE) : Result bool :=
  _ ← assert J (m_AnalysisDone oa);
  let hasFinalizer := classHasFinalizer J clsHnd in
  let isValueClass := isValueClass J clsHnd in
  let classSize :=
    if isValueClass then getClassSize J clsHnd else getHeapClassSize J clsHnd in
  canEscape ← CanLclVarEscape J oa lclNum;
  Ok (negb canEscape && negb hasFinalizer && (classSize <=? s_StackAllocMaxSize)%N).

(** ** Node builders and local-table operations

    Modelled from the spec: the builders of [Compiler] the rewriter calls
    ([gtNewLclvNode], [gtNewIconNode], [gtNewBlkOpNode], [gtNewOperNode],
    [gtNewFieldRef], [gtNewAssignNode], [gtNewStmt], [gtNewArgList],
    [lvaGrabTemp], [lvaSetStruct], [fgMorphIntoHelperCall]) are defined
    outside the two files.  Each builds the node its name and arguments
    say; the flag word of a fresh node is left at zero. *)
Definition gtNewLclvNode (lclNum : nat) (type : var_types) : GenTree :=
  GenTreeLclVar type 0 lclNum.

Definition gtNewIconNode (value : Z) : GenTree := GenTreeIntCon TYP_INT 0 value.

Definition gtNewBlkOpNode (dst srcOrFillVal : GenTree) (size : N)
    (isVolatile isCopyBlock : bool) : GenTree :=
  GenTreeBlk TYP_VOID 0 dst srcOrFillVal size isVolatile isCopyBlock.

Definition gtNewOperNode (oper : genTreeOps) (type : var_types) (op1 : GenTree) : GenTree :=
  GenTreeOp oper type 0 (Some op1) None.

Definition gtNewFieldRef (typ : var_types) (obj : GenTree) (offset : N) : GenTree :=
  GenTreeField typ 0 (Some obj) offset.

Definition gtNewAssignNode (dst src : GenTree) : GenTree :=
  GenTreeOp GT_ASG (TypeGet dst) 0 (Some dst) (Some src).

Definition gtNewStmt (expr : GenTree) : GenTreeStmt := {| gtStmtExpr := expr |}.

Definition gtNewArgList (arg : GenTree) : list GenTree := [arg].

(** A fresh local: the next free number, appended to the table. *)
Definition lvaGrabTemp (comp : Compiler) (shortLifetime : bool) : Compiler * nat :=
  ({| lvaTable := lvaTable comp ++
                    [{| lvType := TYP_UNDEF; lvAddrExposed := false; lvClassHnd := None |}];
      optMethodFlags := optMethodFlags comp;
      fgBlocks := fgBlocks comp |},
   lvaCount comp).

(** The local becomes a struct laid out as the class. *)
Definition lvaSetStruct (comp : Compiler) (varNum : nat) (typeHnd : CORINFO_CLASS_HANDLE)
    (unsafeValueClsCheck : bool) : Compiler :=
  {| lvaTable :=
       alter (λ dsc, {| lvType := TYP_STRUCT; lvAddrExposed := lvAddrExposed dsc;
                        lvClassHnd := Some typeHnd |}) varNum (lvaTable comp);
     optMethodFlags := optMethodFlags comp;
     fgBlocks := fgBlocks comp |}.

Definition lvSize (J : JitHost) (dsc : LclVarDsc) : N :=
  match lvClassHnd dsc with
  | Some typeHnd => lvaStructSize J typeHnd
  | None => 0%N
  end.

(** The node becomes a call to the helper with the given arguments. *)
Definition fgMorphIntoHelperCall (J : JitHost) (tree : GenTree) (helper : CorInfoHelpFunc)
    (args : list GenTree) (morphArgs : bool) : GenTree :=
  let call := GenTreeCall (TypeGet tree) (ChangeOperFlags J GT_CALL (gtFlagsOf tree))
                CT_HELPER (eeFindHelper J helper) 0 None args in
  if morphArgs then fgMorphArgs J call else call.

(** Stores through a node pointer: [tree->gtOp.gtOp2 = op2] and
    [tree->gtFlags |= bits]. *)
Definition set_gtOp2 (tree op2 : GenTree) : Result GenTree :=
  match tree with
  | GenTreeOp oper ty fl op1 _ => Ok (GenTreeOp oper ty fl op1 (Some op2))
  | _ => Undefined
  end.

Definition or_gtFlags (tree : GenTree) (bits : N) : GenTree :=
  match tree with
  | GenTreeLclVar ty fl n => GenTreeLclVar ty (N.lor fl bits) n
  | GenTreeIntCon ty fl v => GenTreeIntCon ty (N.lor fl bits) v
  | GenTreeOp oper ty fl op1 op2 => GenTreeOp oper ty (N.lor fl bits) op1 op2
  | GenTreeField ty fl obj offs => GenTreeField ty (N.lor fl bits) obj offs
  | GenTreeCall ty fl ct hnd more objp args =>
      GenTreeCall ty (N.lor fl bits) ct hnd more objp args
  | GenTreeAllocObj ty fl helper cls op1 => GenTreeAllocObj ty (N.lor fl bits) helper cls op1
  | GenTreeBlk ty fl dst src size v c => GenTreeBlk ty (N.lor fl bits) dst src size v c
  end.

(** [fgMorphBlockStmt(block, stmt)] when the phase runs after morph. *)
Definition remorph (J : JitHost) (oa : ObjectAllocator) (stmt : GenTreeStmt) : GenTreeStmt :=
  if IsRunningAfterMorph oa
  then {| gtStmtExpr := fgMorphBlockStmt J (gtStmtExpr stmt) |}
  else stmt.

(** ** MorphAllocObjNodeIntoHelperCall *)

Definition MorphAllocObjNodeIntoHelperCall (J : JitHost) (oa : ObjectAllocator)
    (allocObj : GenTree) : Result GenTree :=
  match allocObj with
  | GenTreeAllocObj _ _ gtNewHelper _ op1 =>
      let helperCall :=
        fgMorphIntoHelperCall J allocObj gtNewHelper (gtNewArgList op1)
          (IsRunningAfterMorph oa) in
      Ok helperCall
  | _ => Undefined
  end.

(** ** MorphAllocObjNodeIntoStackAlloc

    The result carries the compiler with the new local, the statements
    inserted before [stmt] (in the order they end up in the block), and
    the node [allocObj] has been changed into. *)
Definition MorphAllocObjNodeIntoStackAlloc (J : JitHost) (oa : ObjectAllocator)
    (comp : Compiler) (allocObj : GenTree)
  : Result (Compiler * list GenTreeStmt * GenTree) :=
  match allocObj with
  | GenTreeAllocObj _ gtFlags _ gtAllocObjClsHnd allocObjOp1 =>
      _ ← assert J (m_AnalysisDone oa);
      let '(comp, lclNum) := lvaGrabTemp comp false in
      let comp := lvaSetStruct comp lclNum gtAllocObjClsHnd true in
      dsc ← deref (lvaTable comp !! lclNum);
      let structSize := lvSize J dsc in
      (* zero-fill of the new local *)
      let tree := gtNewLclvNode lclNum TYP_STRUCT in
      let tree := gtNewBlkOpNode tree (gtNewIconNode 0) structSize false false in
      let newStmt1 := remorph J oa (gtNewStmt tree) in
      (* store of the class handle at the header offset *)
      let objHeaderSize := getObjHeaderSize J in
      let tree := gtNewLclvNode lclNum TYP_STRUCT in
      let tree := gtNewOperNode GT_ADDR TYP_BYREF tree in
      let tree := gtNewFieldRef (TYP_I_IMPL J) tree objHeaderSize in
      let tree := gtNewAssignNode tree allocObjOp1 in
      let newStmt2 := remorph J oa (gtNewStmt tree) in
      (* allocObj->ChangeOper(GT_ADD); gtType, gtOp1, gtOp2 *)
      let tree := gtNewLclvNode lclNum TYP_STRUCT in
      let tree := gtNewOperNode GT_ADDR TYP_BYREF tree in
      let allocObj :=
        GenTreeOp GT_ADD (TYP_I_IMPL J) (ChangeOperFlags J GT_ADD gtFlags)
          (Some tree) (Some (gtNewIconNode (Z.of_N objHeaderSize))) in
      Ok (comp, [newStmt1; newStmt2], allocObj)
  | _ => Undefined
  end.

(** ** MorphAllocObjNodes *)

(** [AssertWhenAllocObjFoundVisitor] (checked builds only). *)
Definition AssertWhenAllocObjFoundVisitor (J : JitHost) (tree : GenTree)
    (data : fgWalkData) (s : unit) : Result unit :=
  assert J (negb (bool_decide (OperGet tree = GT_ALLOCOBJ))).

Definition gtAllocObjClsHndOf (tree : GenTree) : Result CORINFO_CLASS_HANDLE :=
  match tree with
  | GenTreeAllocObj _ _ _ clsHnd _ => Ok clsHnd
  | _ => Undefined
  end.

Definition set_optMethodFlags (comp : Compiler) (flags : N) : Compiler :=
  {| lvaTable := lvaTable comp; optMethodFlags := flags; fgBlocks := fgBlocks comp |}.

(** The body of the statement loop.  The result carries the statements
    that stand where [stmt] stood: those inserted before it, then [stmt]
    itself. *)
Definition MorphAllocObjNodes_stmt (J : JitHost) (oa : ObjectAllocator)
    (block : BasicBlock) (comp : Compiler) (stmt : GenTreeStmt)
  : Result (Compiler * list GenTreeStmt) :=
  let basicBlockHasNewObj :=
    (N.land (bbFlags block) (BBF_HAS_NEWOBJ J) =? BBF_HAS_NEWOBJ J)%N in
  let stmtExpr := gtStmtExpr stmt in
  '(canonicalAllocObjFound, op2) ←
    (if bool_decide (OperGet stmtExpr = GT_ASG) && bool_decide (TypeGet stmtExpr = TYP_REF)
     then
       op2 ← deref (gtGetOp2 stmtExpr);
       Ok (bool_decide (OperGet op2 = GT_ALLOCOBJ), Some op2)
     else Ok (false, None));
  if canonicalAllocObjFound : bool then
    _ ← assert J basicBlockHasNewObj;
    op1 ← deref (gtGetOp1 stmtExpr);
    _ ← assert J (bool_decide (OperGet op1 = GT_LCL_VAR));
    _ ← assert J (bool_decide (TypeGet op1 = TYP_REF));
    asAllocObj ← deref op2;
    lclNum ← GetLclNum op1;
    clsHnd ← gtAllocObjClsHndOf asAllocObj;
    onStack ←
      (if IsObjectStackAllocationEnabled oa then
         canAllocate ← CanAllocateLclVarOnStack J oa lclNum clsHnd;
         Ok (canAllocate && negb (IsPartOfCycle J (bbNum block)))
       else Ok false);
    '(comp, inserted, op2) ←
      (if onStack : bool then
         '(comp, inserted, op2) ← MorphAllocObjNodeIntoStackAlloc J oa comp asAllocObj;
         Ok (set_optMethodFlags comp
               (N.lor (optMethodFlags comp) (OMF_HAS_OBJSTACKALLOC J)),
             inserted, op2)
       else
         op2 ← MorphAllocObjNodeIntoHelperCall J oa asAllocObj;
         Ok (comp, [], op2));
    (* allocObj was changed in place, so it already is the statement's op2 *)
    stmtExpr ← set_gtOp2 stmtExpr op2;
    let stmt := remorph J oa {| gtStmtExpr := stmtExpr |} in
    (* Propagate flags of op2 to its parent. *)
    stmtExpr ← set_gtOp2 (gtStmtExpr stmt) op2;
    let stmtExpr := or_gtFlags stmtExpr (N.land (gtFlagsOf op2) (GTF_ALL_EFFECT J)) in
    Ok (comp, inserted ++ [{| gtStmtExpr := stmtExpr |}])
  else
    if DEBUG J then
      (* We assume that GT_ALLOCOBJ nodes are always present in the canonical form. *)
      _ ← fgWalkTreePre (AssertWhenAllocObjFoundVisitor J) (gtStmtExpr stmt) tt;
      Ok (comp, [stmt])
    else Ok (comp, [stmt]).

Fixpoint MorphAllocObjNodes_stmts (J : JitHost) (oa : ObjectAllocator)
    (block : BasicBlock) (comp : Compiler) (stmts : list GenTreeStmt)
  : Result (Compiler * list GenTreeStmt) :=
  match stmts with
  | [] => Ok (comp, [])
  | stmt :: rest =>
      '(comp, here) ← MorphAllocObjNodes_stmt J oa block comp stmt;
      '(comp, there) ← MorphAllocObjNodes_stmts J oa block comp rest;
      Ok (comp, here ++ there)
  end.

(** The body of [foreach_block]: the compiler state and the block as the
    pass leaves it. *)
Definition MorphAllocObjNodes_block (J : JitHost) (oa : ObjectAllocator)
    (comp : Compiler) (block : BasicBlock) : Result (Compiler * BasicBlock) :=
  let basicBlockHasNewObj :=
    (N.land (bbFlags block) (BBF_HAS_NEWOBJ J) =? BBF_HAS_NEWOBJ J)%N in
  if negb (DEBUG J) && negb basicBlockHasNewObj then
    Ok (comp, block) (* continue *)
  else
    '(comp, stmts) ← MorphAllocObjNodes_stmts J oa block comp (bbStmts block);
    Ok (comp, {| bbNum := bbNum block; bbFlags := bbFlags block; bbStmts := stmts |}).

Fixpoint MorphAllocObjNodes_blocks (J : JitHost) (oa : ObjectAllocator)
    (comp : Compiler) (blocks : list BasicBlock) : Result (Compiler * list BasicBlock) :=
  match blocks with
  | [] => Ok (comp, [])
  | block :: rest =>
      '(comp, block) ← MorphAllocObjNodes_block J oa comp block;
      '(comp, rest) ← MorphAllocObjNodes_blocks J oa comp rest;
      Ok (comp, block :: rest)
  end.

Definition MorphAllocObjNodes (J : JitHost) (oa : ObjectAllocator) (comp : Compiler)
  : Result Compiler :=
  '(comp', blocks) ← MorphAllocObjNodes_blocks J oa comp (fgBlocks comp);
  Ok {| lvaTable := lvaTable comp';
        optMethodFlags := optMethodFlags comp';
        fgBlocks := blocks |}.

(** ** DoPhase *)

Definition DoPhase (J : JitHost) (oa : ObjectAllocator) (comp : Compiler)
  : Result (ObjectAllocator * Compiler) :=
  if (N.land (optMethodFlags comp) (OMF_HAS_NEWOBJ J) =? 0)%N then
    Ok (oa, comp)
  else
    oa ← (if IsObjectStackAllocationEnabled oa then DoAnalysis J comp oa else Ok oa);
    comp ← MorphAllocObjNodes J oa comp;
    Ok (oa, comp).

(** ** Concrete hosts and methods used by the examples *)

(** A 64-bit host: the native int is [TYP_LONG]; the masks are distinct
    single bits, except the effect mask, which covers the five low bits;
    the object header is 8 bytes; class 1 has a finalizer, class 2 is
    9000 bytes large, every other class is a 24-byte heap class; helper 7
    is pure; block 9 lies on a cycle. *)
Definition host (debug : bool) : JitHost :=
  {| DEBUG := debug;
     TYP_I_IMPL := TYP_LONG;
     OMF_HAS_NEWOBJ := 0x1;
     OMF_HAS_OBJSTACKALLOC := 0x200;
     BBF_HAS_NEWOBJ := 0x400;
     GTF_ALL_EFFECT := 0x1F;
     GTF_CALL_M_DELEGATE_INV := 0x80;
     classHasFinalizer := λ cls, bool_decide (cls = 1);
     isValueClass := λ _, false;
     getClassSize := λ _, 16%N;
     getHeapClassSize := λ cls, if bool_decide (cls = 2) then 9000%N else 24%N;
     getObjHeaderSize := 8;
     eeGetHelperNum := λ hnd, hnd;
     eeFindHelper := λ helper, helper;
     IsPure := λ helper, bool_decide (helper = 7);
     IsPartOfCycle := λ bb, bool_decide (bb = 9);
     lvaStructSize := λ cls, if bool_decide (cls = 2) then 9000%N else 24%N;
     ChangeOperFlags := λ _ fl, fl;
     fgMorphBlockStmt := λ t, t;
     fgMorphArgs := λ t, t |}.

Definition refLocal : LclVarDsc :=
  {| lvType := TYP_REF; lvAddrExposed := false; lvClassHnd := None |}.

(** [new X()] for class [cls]: helper 3, the class handle as operand. *)
Definition newObj (cls : CORINFO_CLASS_HANDLE) : GenTree :=
  GenTreeAllocObj TYP_REF 0 3 cls (GenTreeIntCon TYP_LONG 0 (Z.of_nat cls)).

Definition lclRef (lclNum : nat) : GenTree := GenTreeLclVar TYP_REF 0 lclNum.

Definition asgRef (dst src : GenTree) : GenTreeStmt :=
  {| gtStmtExpr := GenTreeOp GT_ASG TYP_REF 0 (Some dst) (Some src) |}.

(** A static field [g]: a field node without an object. *)
Definition staticG : GenTree := GenTreeField TYP_REF 0 None 0.

Definition method (stmts : list GenTreeStmt) (locals : nat) : Compiler :=
  {| lvaTable := replicate locals refLocal;
     optMethodFlags := 0x1;
     fgBlocks := [{| bbNum := 1; bbFlags := 0x400; bbStmts := stmts |}] |}.

(** [t = new X(); u = t; g = u;] with [t] = V0 and [u] = V1. *)
Definition method_tug : Compiler :=
  method [asgRef (lclRef 0) (newObj 5); asgRef (lclRef 1) (lclRef 0);
          asgRef staticG (lclRef 1)] 2.

(** The phase object as the driver sets it up for a method. *)
Definition phase (comp : Compiler) (enabled isAfterMorph : bool) : ObjectAllocator :=
  let oa := ObjectAllocator_new comp isAfterMorph in
  if enabled then EnableObjectStackAllocation oa else oa.

(** [d.Invoke(d)]: a delegate invocation (method handle 11) whose
    receiver and whose only ordinary argument are both the local [d]. *)
Definition invoke_self (d : nat) : GenTree :=
  GenTreeCall TYP_VOID 0 CT_USER_FUNC 11 0x80 (Some (lclRef d)) [lclRef d].

(** The same call without the delegate-invoke flag. *)
Definition call_self (d : nat) : GenTree :=
  GenTreeCall TYP_VOID 0 CT_USER_FUNC 11 0 (Some (lclRef d)) [lclRef d].

(** [t = new X(); u = t; g = t;] with [t] = V0 and [u] = V1: [u] is
    assigned from [t], and it is [t] that is stored to the static. *)
Definition method_ut_gt : Compiler :=
  method [asgRef (lclRef 0) (newObj 5); asgRef (lclRef 1) (lclRef 0);
          asgRef staticG (lclRef 0)] 2.

(** [t = new X(); b = t + 8; F(b);] with [t] = V0 of type [tyT] and the
    interior pointer [b] = V1 of type [tyB]; [F] is an ordinary user
    method (handle 12). *)
Definition method_interior (tyB : var_types) : Compiler :=
  {| lvaTable := [refLocal;
                  {| lvType := tyB; lvAddrExposed := false; lvClassHnd := None |}];
     optMethodFlags := 0x1;
     fgBlocks :=
       [{| bbNum := 1; bbFlags := 0x400;
           bbStmts :=
             [asgRef (lclRef 0) (newObj 5);
              {| gtStmtExpr :=
                   GenTreeOp GT_ASG tyB 0 (Some (GenTreeLclVar tyB 0 1))
                     (Some (GenTreeOp GT_ADD tyB 0 (Some (lclRef 0))
                              (Some (GenTreeIntCon TYP_LONG 0 8)))) |};
              {| gtStmtExpr :=
                   GenTreeCall TYP_VOID 0 CT_USER_FUNC 12 0 None
                     [GenTreeLclVar tyB 0 1] |}] |}] |}.

(** [t = new X();] in a block whose [BBF_HAS_NEWOBJ] flag is not set. *)
Definition method_unflagged : Compiler :=
  {| lvaTable := [refLocal];
     optMethodFlags := 0x1;
     fgBlocks := [{| bbNum := 1; bbFlags := 0;
                     bbStmts := [asgRef (lclRef 0) (newObj 5)] |}] |}.

(** ** Vocabulary of the rewriter's theorems *)

(** The block's [BBF_HAS_NEWOBJ] flag is set. *)
Definition basicBlockHasNewObj (J : JitHost) (block : BasicBlock) : Prop :=
  N.land (bbFlags block) (BBF_HAS_NEWOBJ J) = BBF_HAS_NEWOBJ J.

(** The condition of the [if] that chooses the stack. *)
Definition choosesStack (J : JitHost) (oa : ObjectAllocator) (block : BasicBlock)
    (lclNum : nat) (clsHnd : CORINFO_CLASS_HANDLE) : bool :=
  IsObjectStackAllocationEnabled oa
  && (negb (bool_decide (lclNum ∈ m_EscapingPointers oa))
      && negb (classHasFinalizer J clsHnd)
      && ((if isValueClass J clsHnd then getClassSize J clsHnd
           else getHeapClassSize J clsHnd) <=? s_StackAllocMaxSize)%N)
  && negb (IsPartOfCycle J (bbNum block)).

(** When the phase runs after morph, re-morphing a statement whose root is
    an operator node leaves an operator node at the root (the stores the
    rewriter makes through [stmtExpr] afterwards need one). *)
Definition keeps_operator_root (J : JitHost) (oa : ObjectAllocator) : Prop :=
  IsRunningAfterMorph oa = true →
  ∀ oper ty fl op1 op2, ∃ oper' ty' fl' op1' op2',
    fgMorphBlockStmt J (GenTreeOp oper ty fl op1 op2) = GenTreeOp oper' ty' fl' op1' op2'.

(** The statement the rewriter leaves where the allocation statement
    stood, once [op2] is what the construction expression has become. *)
Definition rewrittenStmt (J : JitHost) (oa : ObjectAllocator) (stmtExpr op2 : GenTree)
  : Result GenTreeStmt :=
  stmtExpr ← set_gtOp2 stmtExpr op2;
  let stmt := remorph J oa {| gtStmtExpr := stmtExpr |} in
  stmtExpr ← set_gtOp2 (gtStmtExpr stmt) op2;
  Ok {| gtStmtExpr := or_gtFlags stmtExpr (N.land (gtFlagsOf op2) (GTF_ALL_EFFECT J)) |}.

(** The phase object once the analysis has run and found the set
    [escaping]; the flagged block 1 and the block 9, which the example
    host places on a cycle. *)
Definition analysed (escaping : BitVec) (isAfterMorph : bool) : ObjectAllocator :=
  {| m_IsObjectStackAllocationEnabled := true; m_AnalysisDone := true;
     m_IsRunningAfterMorph := isAfterMorph; m_bitVecTraits := 2;
     m_EscapingPointers := escaping |}.

Definition block1 (stmts : list GenTreeStmt) : BasicBlock :=
  {| bbNum := 1; bbFlags := 0x400; bbStmts := stmts |}.

(** ** Vocabulary of the graph builder's theorems *)

(** The nodes of a tree: the node itself and every node below it. *)
Fixpoint nodes (tree : GenTree) : list GenTree :=
  let below (op : option GenTree) : list GenTree :=
    match op with
    | Some t => nodes t
    | None => []
    end in
  tree ::
  match tree with
  | GenTreeLclVar _ _ _ | GenTreeIntCon _ _ _ => []
  | GenTreeOp _ _ _ op1 op2 => below op1 ++ below op2
  | GenTreeField _ _ obj _ => below obj
  | GenTreeCall _ _ _ _ _ objp args => below objp ++ concat (nodes <$> args)
  | GenTreeAllocObj _ _ _ _ op1 => nodes op1
  | GenTreeBlk _ _ dst src _ _ _ => nodes dst ++ nodes src
  end.

(** The statements of a method, block after block. *)
Definition stmtsOf (comp : Compiler) : list GenTreeStmt :=
  concat (bbStmts <$> fgBlocks comp).

(** The test [BuildConnGraph] makes on a local's type before it gives
    the local a pointee set. *)
Definition participates (J : JitHost) (type : var_types) : bool :=
  bool_decide (type = TYP_REF) || bool_decide (type = TYP_I_IMPL J)
  || bool_decide (type = TYP_BYREF).

(** The local exists and its slot is of a type that [participates]. *)
Definition pointerKindSlot (J : JitHost) (comp : Compiler) (lclNum : nat) : Prop :=
  ∃ dsc, lvaTable comp !! lclNum = Some dsc ∧ participates J (lvType dsc) = true.

(** The test [BuildConnGraphVisitor] makes on a leaf. *)
Definition visitedLeaf (J : JitHost) (tree : GenTree) (lclNum : nat) : Prop :=
  ∃ ty fl, tree = GenTreeLclVar ty fl lclNum ∧ (ty = TYP_REF ∨ ty = TYP_I_IMPL J).

(** [assignsFrom J asg p q]: [asg] is an assignment whose destination is
    a local-variable node for [p], and a leaf for [q] that the visitor
    looks at lies below [asg]. *)
Definition assignsFrom (J : JitHost) (asg : GenTree) (p q : nat) : Prop :=
  OperGet asg = GT_ASG ∧
  (∃ ty fl, gtGetOp1 asg = Some (GenTreeLclVar ty fl p)) ∧
  ∃ leaf, leaf ∈ nodes asg ∧ visitedLeaf J leaf q.

(** Some statement of the method holds such an assignment. *)
Definition methodAssignsFrom (J : JitHost) (comp : Compiler) (p q : nat) : Prop :=
  ∃ stmt asg, stmt ∈ stmtsOf comp ∧ asg ∈ nodes (gtStmtExpr stmt) ∧ assignsFrom J asg p q.

(** A 32-bit host: as [host], with [TYP_INT] for the native int. *)
Definition host32 (debug : bool) : JitHost :=
  {| DEBUG := debug;
     TYP_I_IMPL := TYP_INT;
     OMF_HAS_NEWOBJ := OMF_HAS_NEWOBJ (host debug);
     OMF_HAS_OBJSTACKALLOC := OMF_HAS_OBJSTACKALLOC (host debug);
     BBF_HAS_NEWOBJ := BBF_HAS_NEWOBJ (host debug);
     GTF_ALL_EFFECT := GTF_ALL_EFFECT (host debug);
     GTF_CALL_M_DELEGATE_INV := GTF_CALL_M_DELEGATE_INV (host debug);
     classHasFinalizer := classHasFinalizer (host debug);
     isValueClass := isValueClass (host debug);
     getClassSize := getClassSize (host debug);
     getHeapClassSize := getHeapClassSize (host debug);
     getObjHeaderSize := 4;
     eeGetHelperNum := eeGetHelperNum (host debug);
     eeFindHelper := eeFindHelper (host debug);
     IsPure := IsPure (host debug);
     IsPartOfCycle := IsPartOfCycle (host debug);
     lvaStructSize := lvaStructSize (host debug);
     ChangeOperFlags := ChangeOperFlags (host debug);
     fgMorphBlockStmt := fgMorphBlockStmt (host debug);
     fgMorphArgs := fgMorphArgs (host debug) |}.

(** [s = i;] with [s] = V0 a 16-bit local and [i] = V1 an [int] local,
    both read and written through [int] nodes. *)
Definition method_short_int : Compiler :=
  {| lvaTable := [{| lvType := TYP_SHORT; lvAddrExposed := false; lvClassHnd := None |};
                  {| lvType := TYP_INT; lvAddrExposed := false; lvClassHnd := None |}];
     optMethodFlags := 0x1;
     fgBlocks :=
       [{| bbNum := 1; bbFlags := 0;
           bbStmts :=
             [{| gtStmtExpr :=
                   GenTreeOp GT_ASG TYP_INT 0 (Some (GenTreeLclVar TYP_INT 0 0))
                     (Some (GenTreeLclVar TYP_INT 0 1)) |}] |}] |}.

(** * Theorems *)

Example crn1 : ComputeReachableNodes 2 [∅; {[0]}] {[1]} = Ok {[0; 1]}.
Proof. vm_compute. reflexivity. Qed.

(** ** Sequencing *)

Lemma bind_Ok {A B} (m : Result A) (f : A → Result B) (b : B) :
  m ≫= f = Ok b → ∃ a, m = Ok a ∧ f a = Ok b.
Proof. destruct m as [a| | |]; try discriminate. intros H. by exists a. Qed.

Lemma bind_Ok_l {A B} (m : Result A) (f : A → Result B) (a : A) :
  m = Ok a → m ≫= f = f a.
Proof. by intros ->. Qed.

Lemma assert_Ok J c u : assert J c = Ok u → DEBUG J = true → c = true.
Proof. unfold assert, jit_assert. intros H Hd. rewrite Hd in H. by destruct c. Qed.

Lemma assert_true J : assert J true = Ok tt.
Proof. unfold assert, jit_assert. by destruct (DEBUG J). Qed.

(** Splits a hypothesis [x ← m; k = Ok b] into [m = Ok x] and [k = Ok b]. *)
Ltac inv_bind H :=
  let x := fresh "x" in
  let Hx := fresh "H" x in
  apply bind_Ok in H as (x & Hx & H).

(** ** The closure computation *)

Section Reachability.
Context (bitVecTraits : BitVecTraits) (adjacentNodes : list BitVec).

Lemma crn_inv_init roots : crn_inv adjacentNodes roots roots roots.
Proof. split; set_solver. Qed.

Lemma inner_cons x rest st :
  ComputeReachableNodes_inner bitVecTraits adjacentNodes (x :: rest) st =
  ComputeReachableNodes_step bitVecTraits adjacentNodes st x ≫=
    ComputeReachableNodes_inner bitVecTraits adjacentNodes rest.
Proof. reflexivity. Qed.

Lemma loop_S fuel P R :
  ComputeReachableNodes_loop (S fuel) bitVecTraits adjacentNodes P R =
  match Iter bitVecTraits P with
  | [] => Ok R
  | _ :: _ =>
      ComputeReachableNodes_inner bitVecTraits adjacentNodes (Iter bitVecTraits P) (P, R)
      ≫= λ st, ComputeReachableNodes_loop fuel bitVecTraits adjacentNodes st.1 st.2
  end.
Proof.
  cbn [ComputeReachableNodes_loop]. destruct (Iter bitVecTraits P) as [|x rest]; [done|].
  by destruct (ComputeReachableNodes_inner bitVecTraits adjacentNodes (x :: rest) (P, R))
    as [[??]| | |].
Qed.

Lemma step_inv roots P R P' R' x :
  crn_inv adjacentNodes roots P R → x ∈ R →
  ComputeReachableNodes_step bitVecTraits adjacentNodes (P, R) x = Ok (P', R') →
  crn_inv adjacentNodes roots P' R' ∧ R ⊆ R'.
Proof.
  intros [Hr Hf Hd Hl] Hx. unfold ComputeReachableNodes_step.
  destruct (adjacentNodes !! x) as [A|] eqn:HA; simpl; [|discriminate].
  unfold RemoveElemD, UnionD, DiffD, Assign. intros [= <- <-].
  split; [split|]; try set_solver.
  - intros a b Ha Hna Hab. destruct (decide (a = x)) as [->|Hne].
    + destruct Hab as (A' & HA' & Hb). rewrite HA in HA'. injection HA' as <-.
      destruct (decide (b ∈ R)); set_solver.
    + assert (a ∈ R ∧ a ∉ P) as [HaR HaP] by set_solver.
      specialize (Hd a b HaR HaP Hab). set_solver.
  - intros S HS Hc. specialize (Hl S HS Hc).
    assert (A ⊆ S) by (intros b Hb; apply (Hc x b); [set_solver | by exists A]).
    set_solver.
Qed.

Lemma inner_inv roots elems : ∀ P R P' R',
  crn_inv adjacentNodes roots P R → (∀ x, x ∈ elems → x ∈ R) →
  ComputeReachableNodes_inner bitVecTraits adjacentNodes elems (P, R) = Ok (P', R') →
  crn_inv adjacentNodes roots P' R' ∧ R ⊆ R'.
Proof.
  induction elems as [|x rest IH]; intros P R P' R' Hinv Hin.
  - intros [= <- <-]. done.
  - rewrite inner_cons. destruct (ComputeReachableNodes_step bitVecTraits adjacentNodes (P, R) x) as [[P1 R1]| | |] eqn:Hs;
      simpl; try discriminate.
    intros Hrest.
    destruct (step_inv _ _ _ _ _ _ Hinv (Hin x ltac:(left)) Hs) as [Hinv1 Hsub1].
    assert (∀ y, y ∈ rest → y ∈ R1) as Hin1.
    { intros y Hy. apply Hsub1, Hin. by right. }
    destruct (IH P1 R1 P' R' Hinv1 Hin1 Hrest) as [Hinv' Hsub'].
    split; [done | set_solver].
Qed.

Lemma Iter_elem P x : x ∈ Iter bitVecTraits P ↔ x ∈ P.
Proof. unfold Iter. rewrite merge_sort_Permutation. apply elem_of_elements. Qed.

Lemma Iter_NoDup P : NoDup (Iter bitVecTraits P).
Proof. unfold Iter. rewrite merge_sort_Permutation. apply NoDup_elements. Qed.

Lemma Iter_nil P : Iter bitVecTraits P = [] → P = ∅.
Proof.
  intros H. apply set_eq. intros x. rewrite <- Iter_elem, H. set_solver.
Qed.

Lemma loop_inv roots fuel : ∀ P R R',
  crn_inv adjacentNodes roots P R →
  ComputeReachableNodes_loop fuel bitVecTraits adjacentNodes P R = Ok R' →
  roots ⊆ R' ∧ closed adjacentNodes R' ∧ ∀ S : BitVec, roots ⊆ S → closed adjacentNodes S → R' ⊆ S.
Proof.
  induction fuel as [|fuel IH]; intros P R R' Hinv; [discriminate|].
  rewrite loop_S. destruct (Iter bitVecTraits P) as [|x rest] eqn:Hit.
  - intros [= <-]. apply Iter_nil in Hit. subst P. destruct Hinv as [Hr _ Hd Hl].
    split; [done|]. split; [|done]. intros a b Ha. apply Hd; set_solver.
  - destruct (ComputeReachableNodes_inner bitVecTraits adjacentNodes (x :: rest) (P, R))
      as [[P1 R1]| | |] eqn:Hin; simpl; try discriminate.
    intros Hloop. eapply IH; [|exact Hloop].
    eapply inner_inv; [exact Hinv| |exact Hin].
    intros y Hy. rewrite <- Hit in Hy. apply Iter_elem in Hy.
    by apply (crn_front _ _ _ _ Hinv).
Qed.

(** *** Termination *)

Lemma adjacent_subseteq a (A : BitVec) : adjacentNodes !! a = Some A → A ⊆ ⋃ adjacentNodes.
Proof.
  intros HA x Hx. apply elem_of_union_list. exists A. split; [|done].
  by eapply list_elem_of_lookup_2.
Qed.

Lemma step_measure P R P' R' x :
  x ∈ P →
  ComputeReachableNodes_step bitVecTraits adjacentNodes (P, R) x = Ok (P', R') →
  ComputeReachableNodes_measure adjacentNodes P' R' <
  ComputeReachableNodes_measure adjacentNodes P R
  ∧ ∀ y, y ∈ P → y ≠ x → y ∈ P'.
Proof.
  intros Hx. unfold ComputeReachableNodes_step.
  destruct (adjacentNodes !! x) as [A|] eqn:HA; simpl; [|discriminate].
  unfold RemoveElemD, UnionD, DiffD, Assign, ComputeReachableNodes_measure.
  intros [= <- <-]. split; [|set_solver].
  pose proof (adjacent_subseteq _ _ HA) as HAT.
  set (T := ⋃ adjacentNodes) in *. set (new := A ∖ R).
  assert (T ∖ (R ∪ new) = (T ∖ R) ∖ new) as -> by set_solver.
  assert (new ⊆ T ∖ R) as Hnew by set_solver.
  rewrite (size_difference (T ∖ R) new Hnew).
  pose proof (subseteq_size _ _ Hnew) as Hle.
  assert (size ((P ∪ new) ∖ {[x]}) = size (P ∪ new) - 1) as ->.
  { rewrite size_difference by set_solver. by rewrite size_singleton. }
  pose proof (size_union_alt P new) as Hu.
  assert (size (new ∖ P) ≤ size new) by (apply subseteq_size; set_solver).
  assert (0 < size P).
  { destruct (decide (size P = 0)) as [Hz|]; [|lia].
    apply size_empty_inv in Hz. set_solver. }
  lia.
Qed.

Lemma inner_measure elems : ∀ P R P' R',
  NoDup elems → (∀ x, x ∈ elems → x ∈ P) →
  ComputeReachableNodes_inner bitVecTraits adjacentNodes elems (P, R) = Ok (P', R') →
  ComputeReachableNodes_measure adjacentNodes P' R' + length elems ≤
  ComputeReachableNodes_measure adjacentNodes P R.
Proof.
  induction elems as [|x rest IH]; intros P R P' R' Hnd Hin.
  - intros [= <- <-]. simpl. lia.
  - rewrite inner_cons. destruct (ComputeReachableNodes_step bitVecTraits adjacentNodes (P, R) x) as [[P1 R1]| | |] eqn:Hs;
      simpl; try discriminate.
    intros Hrest. apply NoDup_cons in Hnd as [Hnx Hnd].
    destruct (step_measure _ _ _ _ _ (Hin x ltac:(left)) Hs) as [Hlt Hkeep].
    specialize (IH P1 R1 P' R' Hnd). 
    assert (∀ y, y ∈ rest → y ∈ P1) as Hin1.
    { intros y Hy. apply Hkeep; [apply Hin; by right|]. intros ->. done. }
    specialize (IH Hin1 Hrest). lia.
Qed.

Lemma inner_no_fuel elems : ∀ st,
  ComputeReachableNodes_inner bitVecTraits adjacentNodes elems st ≠ OutOfFuel
  ∧ ComputeReachableNodes_inner bitVecTraits adjacentNodes elems st ≠ AssertFailed.
Proof.
  induction elems as [|x rest IH]; intros [P R]; [done|].
  rewrite inner_cons. unfold ComputeReachableNodes_step.
  destruct (adjacentNodes !! x); simpl; [apply IH | done].
Qed.

Lemma loop_enough_fuel fuel : ∀ P R,
  ComputeReachableNodes_measure adjacentNodes P R < fuel →
  ComputeReachableNodes_loop fuel bitVecTraits adjacentNodes P R ≠ OutOfFuel.
Proof.
  induction fuel as [|fuel IH]; intros P R Hlt; [simpl in *; lia|].
  rewrite loop_S. destruct (Iter bitVecTraits P) as [|x rest] eqn:Hit; [done|].
  destruct (ComputeReachableNodes_inner bitVecTraits adjacentNodes (x :: rest) (P, R))
    as [[P1 R1]| | |] eqn:Hin; simpl; try done.
  - apply IH.
    assert (ComputeReachableNodes_measure adjacentNodes P1 R1 + length (x :: rest)
            ≤ ComputeReachableNodes_measure adjacentNodes P R) as Hm.
    { apply inner_measure; [|intros y Hy|exact Hin].
      - rewrite <- Hit. apply Iter_NoDup.
      - rewrite <- Hit in Hy. by apply Iter_elem in Hy. }
    simpl in Hm. lia.
  - by destruct (inner_no_fuel (x :: rest) (P, R)).
Qed.

(** *** Absence of faults when every number is in range *)

Lemma step_in_range P R x :
  in_range adjacentNodes R → (∀ a b, edge adjacentNodes a b → b < length adjacentNodes) → x ∈ R →
  ∃ P' R', ComputeReachableNodes_step bitVecTraits adjacentNodes (P, R) x = Ok (P', R')
           ∧ in_range adjacentNodes R'.
Proof.
  intros HR HE Hx. unfold ComputeReachableNodes_step.
  destruct (lookup_lt_is_Some_2 adjacentNodes x (HR x Hx)) as [A HA].
  rewrite HA. simpl. eexists _, _. split; [done|].
  unfold UnionD, DiffD, Assign. intros y Hy.
  apply elem_of_union in Hy as [Hy|Hy]; [by apply HR|].
  apply (HE x y). exists A. set_solver.
Qed.

Lemma step_mono P R P' R' x :
  ComputeReachableNodes_step bitVecTraits adjacentNodes (P, R) x = Ok (P', R') → R ⊆ R'.
Proof.
  unfold ComputeReachableNodes_step. destruct (adjacentNodes !! x); simpl; [|done].
  unfold UnionD. intros [= <- <-]. set_solver.
Qed.

Lemma inner_in_range elems : ∀ P R,
  in_range adjacentNodes R → (∀ a b, edge adjacentNodes a b → b < length adjacentNodes) →
  (∀ x, x ∈ elems → x ∈ R) →
  ∃ P' R', ComputeReachableNodes_inner bitVecTraits adjacentNodes elems (P, R) = Ok (P', R')
           ∧ in_range adjacentNodes R'.
Proof.
  induction elems as [|x rest IH]; intros P R HR HE Hin; [by eauto|].
  destruct (step_in_range P R x HR HE (Hin x ltac:(left))) as (P1 & R1 & Hs & HR1).
  rewrite inner_cons, Hs. simpl. apply IH; [done..|].
  intros y Hy. apply (step_mono _ _ _ _ _ Hs), Hin. by right.
Qed.

Lemma inner_front elems : ∀ P R P' R',
  P ⊆ R →
  ComputeReachableNodes_inner bitVecTraits adjacentNodes elems (P, R) = Ok (P', R') →
  P' ⊆ R'.
Proof.
  induction elems as [|y l IHl]; intros P R P' R' HPR.
  - by intros [= <- <-].
  - rewrite inner_cons. unfold ComputeReachableNodes_step.
    destruct (adjacentNodes !! y); simpl; [|done].
    apply IHl. unfold RemoveElemD, UnionD, DiffD, Assign. set_solver.
Qed.

Lemma loop_in_range fuel : ∀ P R,
  in_range adjacentNodes R → (∀ a b, edge adjacentNodes a b → b < length adjacentNodes) → P ⊆ R →
  ComputeReachableNodes_measure adjacentNodes P R < fuel →
  ∃ R', ComputeReachableNodes_loop fuel bitVecTraits adjacentNodes P R = Ok R'.
Proof.
  induction fuel as [|fuel IH]; intros P R HR HE HPR Hlt; [simpl in *; lia|].
  rewrite loop_S. destruct (Iter bitVecTraits P) as [|x rest] eqn:Hit; [by eauto|].
  destruct (inner_in_range (x :: rest) P R HR HE) as (P1 & R1 & Hin & HR1).
  { intros y Hy. rewrite <- Hit in Hy. apply Iter_elem in Hy. by apply HPR. }
  rewrite Hin. simpl. apply IH; [done | done | by eapply inner_front |].
  assert (ComputeReachableNodes_measure adjacentNodes P1 R1 + length (x :: rest)
          ≤ ComputeReachableNodes_measure adjacentNodes P R) as Hm.
  { apply inner_measure; [|intros y Hy|exact Hin].
    - rewrite <- Hit. apply Iter_NoDup.
    - rewrite <- Hit in Hy. by apply Iter_elem in Hy. }
  simpl in Hm. lia.
Qed.

End Reachability.

(** ** The escape classifier *)

(** On a stack whose parent entry is a field access, the classifier's
    answer is decided by the entry above it alone. *)
Lemma classifier_field J tree parent rest lclNum :
  OperGet parent = GT_FIELD →
  CanLclVarEscapeViaParentStack J (tree :: parent :: rest) lclNum =
  Ok match rest with
     | [] => true
     | grandParent :: _ => bool_decide (OperGet grandParent = GT_ADDR)
     end.
Proof.
  intros Hp. unfold CanLclVarEscapeViaParentStack. cbn. rewrite Hp.
  destruct rest as [|grandParent rest]; reflexivity.
Qed.

(** C2, as amended: for a use whose immediate parent on the ancestor stack
    is a field-access node, the classifier answers "escapes" exactly when
    the field access has no parent on the stack or its parent is an
    address-of node, and "does not escape" when the field access has a
    parent that is not an address-of node. *)
Theorem C2_field_access_escapes_iff_address_taken J tree parent rest lclNum :
  OperGet parent = GT_FIELD →
  ∃ escapes,
    CanLclVarEscapeViaParentStack J (tree :: parent :: rest) lclNum = Ok escapes ∧
    (escapes = true ↔
       rest = [] ∨ ∃ grandParent rest', rest = grandParent :: rest' ∧
                                        OperGet grandParent = GT_ADDR) ∧
    (escapes = false ↔
       ∃ grandParent rest', rest = grandParent :: rest' ∧
                            OperGet grandParent ≠ GT_ADDR).
Proof.
  intros Hp. rewrite (classifier_field J tree parent rest lclNum Hp).
  eexists. split; [reflexivity|]. destruct rest as [|g rest'].
  - split; split; try done; [by left | by intros (? & ? & ? & ?)].
  - rewrite bool_decide_eq_true, bool_decide_eq_false. split; split.
    + intros H. right. by exists g, rest'.
    + intros [?|(g' & r' & [= <- <-] & H)]; done.
    + intros H. by exists g, rest'.
    + by intros (g' & r' & [= <- <-] & H).
Qed.

Lemma C2_witness :
  ∃ escapes,
    CanLclVarEscapeViaParentStack (host true)
      [lclRef 0; GenTreeField TYP_INT 0 (Some (lclRef 0)) 16;
       GenTreeOp GT_ASG TYP_INT 0 (Some (GenTreeLclVar TYP_INT 0 1))
         (Some (GenTreeField TYP_INT 0 (Some (lclRef 0)) 16))] 0 = Ok escapes ∧
    (escapes = true ↔
       [GenTreeOp GT_ASG TYP_INT 0 (Some (GenTreeLclVar TYP_INT 0 1))
          (Some (GenTreeField TYP_INT 0 (Some (lclRef 0)) 16))] = [] ∨
       ∃ grandParent rest',
         [GenTreeOp GT_ASG TYP_INT 0 (Some (GenTreeLclVar TYP_INT 0 1))
            (Some (GenTreeField TYP_INT 0 (Some (lclRef 0)) 16))] = grandParent :: rest' ∧
         OperGet grandParent = GT_ADDR) ∧
    (escapes = false ↔
       ∃ grandParent rest',
         [GenTreeOp GT_ASG TYP_INT 0 (Some (GenTreeLclVar TYP_INT 0 1))
            (Some (GenTreeField TYP_INT 0 (Some (lclRef 0)) 16))] = grandParent :: rest' ∧
         OperGet grandParent ≠ GT_ADDR).
Proof.
  apply (C2_field_access_escapes_iff_address_taken (host true)). reflexivity.
Defined.

(** C2, as the claim states it, fails: under an address-of node the
    classifier answers "escapes" ([true]), where the claim has "does not
    escape"; and in the field read [y = t.field], a field access that is
    not under an address-of node, it answers "does not escape" ([false]),
    where the claim has "escapes". *)
Lemma C2_counterexample :
  CanLclVarEscapeViaParentStack (host true)
    [lclRef 0;
     GenTreeField TYP_INT 0 (Some (lclRef 0)) 16;
     GenTreeOp GT_ADDR TYP_BYREF 0 (Some (GenTreeField TYP_INT 0 (Some (lclRef 0)) 16)) None]
    0 = Ok true
  ∧
  CanLclVarEscapeViaParentStack (host true)
    [lclRef 0;
     GenTreeField TYP_INT 0 (Some (lclRef 0)) 16;
     GenTreeOp GT_ASG TYP_INT 0 (Some (GenTreeLclVar TYP_INT 0 1))
       (Some (GenTreeField TYP_INT 0 (Some (lclRef 0)) 16))]
    0 = Ok false.
Proof. split; reflexivity. Qed.

(** C9: when the immediate parent is a direct user call flagged as a
    delegate invocation and the call's receiver is a local-variable node
    with the number being classified, the classifier answers "does not
    escape" for whatever node is on top of the stack, so also for an
    occurrence of the local in an ordinary argument position.  In
    [d.Invoke(d)] neither occurrence of [d] is marked, while the same
    call without the delegate flag marks [d]. *)
Theorem C9_delegate_receiver_match_ignores_position :
  (∀ J tree ty fl hnd more objp args rest lclNum thisTy thisFl,
     N.land more (GTF_CALL_M_DELEGATE_INV J) ≠ 0%N →
     objp = Some (GenTreeLclVar thisTy thisFl lclNum) →
     CanLclVarEscapeViaParentStack J
       (tree :: GenTreeCall ty fl CT_USER_FUNC hnd more objp args :: rest) lclNum
     = Ok false)
  ∧ (∀ debug,
       fgWalkTreePre (BuildConnGraphVisitor (host debug) 1) (invoke_self 0)
         {| m_connGraphPointees := [∅]; m_EscapingPointers_cb := ∅ |}
       = Ok {| m_connGraphPointees := [∅]; m_EscapingPointers_cb := ∅ |}
       ∧
       fgWalkTreePre (BuildConnGraphVisitor (host debug) 1) (call_self 0)
         {| m_connGraphPointees := [∅]; m_EscapingPointers_cb := ∅ |}
       = Ok {| m_connGraphPointees := [∅]; m_EscapingPointers_cb := {[0]} |}).
Proof.
  split.
  - intros J tree ty fl hnd more objp args rest lclNum thisTy thisFl Hflag ->.
    unfold CanLclVarEscapeViaParentStack. cbn.
    apply N.eqb_neq in Hflag. rewrite Hflag. cbn.
    by rewrite decide_True.
  - intros []; split; vm_compute; reflexivity.
Qed.

Lemma C9_witness :
  CanLclVarEscapeViaParentStack (host true)
    [lclRef 0; invoke_self 0] 0 = Ok false.
Proof.
  apply (proj1 C9_delegate_receiver_match_ignores_position (host true)
           (lclRef 0) TYP_VOID 0%N 11 0x80%N (Some (lclRef 0)) [lclRef 0] [] 0 TYP_REF 0%N).
  - vm_compute. discriminate.
  - reflexivity.
Defined.

(** ** Eligibility *)

(** C6: once the analysis is done, [CanAllocateLclVarOnStack] returns,
    and answers yes exactly when the local is not in the escaping set,
    the class has no finalizer, and the instance size (the class size of
    a value class, the heap size otherwise) is at most
    [s_StackAllocMaxSize] = 8192: a size of 8192 passes, 8193 does not. *)
Theorem C6_stack_eligibility J oa lclNum clsHnd :
  m_AnalysisDone oa = true →
  let classSize :=
    if isValueClass J clsHnd then getClassSize J clsHnd else getHeapClassSize J clsHnd in
  ∃ eligible,
    CanAllocateLclVarOnStack J oa lclNum clsHnd = Ok eligible ∧
    (eligible = true ↔
       (lclNum ∉ m_EscapingPointers oa) ∧ classHasFinalizer J clsHnd = false ∧
       (classSize ≤ 8192)%N) ∧
    s_StackAllocMaxSize = 8192%N ∧
    (lclNum ∉ m_EscapingPointers oa → classHasFinalizer J clsHnd = false →
       classSize = 8192%N → eligible = true) ∧
    (classSize = 8193%N → eligible = false).
Proof.
  intros Hdone classSize.
  unfold CanAllocateLclVarOnStack, CanLclVarEscape, assert, jit_assert, IsMember.
  rewrite Hdone. fold classSize.
  destruct (DEBUG J); cbn;
    (eexists; split; [reflexivity|]);
    rewrite !andb_true_iff, !negb_true_iff, bool_decide_eq_false, N.leb_le;
    unfold s_StackAllocMaxSize;
    (split; [tauto|]); (split; [reflexivity|]); split.
  all: try (intros Hn Hf Hs; rewrite Hs; repeat split; [done | done | lia]).
  all: intros Hs; rewrite Hs; apply not_true_is_false;
       rewrite !andb_true_iff, N.leb_le; lia.
Qed.

Lemma C6_witness :
  ∃ eligible,
    CanAllocateLclVarOnStack (host true)
      {| m_IsObjectStackAllocationEnabled := true; m_AnalysisDone := true;
         m_IsRunningAfterMorph := false; m_bitVecTraits := 2;
         m_EscapingPointers := {[1]} |} 0 5 = Ok eligible ∧
    eligible = true.
Proof.
  destruct (C6_stack_eligibility (host true)
              {| m_IsObjectStackAllocationEnabled := true; m_AnalysisDone := true;
                 m_IsRunningAfterMorph := false; m_bitVecTraits := 2;
                 m_EscapingPointers := {[1]} |} 0 5 eq_refl)
    as (eligible & Hrun & Hiff & _).
  exists eligible. split; [exact Hrun|].
  apply Hiff. split; [|split].
  - simpl. intros H%elem_of_singleton. discriminate.
  - reflexivity.
  - vm_compute. discriminate.
Defined.

(** ** The closure, end to end *)

(** Whenever [ComputeReachableNodes] returns, its result contains the
    seed, is closed under the edges, and lies inside every closed set
    that contains the seed. *)
Lemma ComputeReachableNodes_sound bitVecTraits adjacentNodes roots R :
  ComputeReachableNodes bitVecTraits adjacentNodes roots = Ok R →
  roots ⊆ R ∧ closed adjacentNodes R ∧
  ∀ S : BitVec, roots ⊆ S → closed adjacentNodes S → R ⊆ S.
Proof.
  unfold ComputeReachableNodes, MakeCopy. intros H.
  eapply loop_inv; [|exact H]. apply crn_inv_init.
Qed.

(** The bound of the loop is never what stops it. *)
Lemma ComputeReachableNodes_terminates bitVecTraits adjacentNodes roots :
  ComputeReachableNodes bitVecTraits adjacentNodes roots ≠ OutOfFuel.
Proof. unfold ComputeReachableNodes. apply loop_enough_fuel. lia. Qed.

(** C1: on a seed and a graph whose numbers all index the adjacency
    array, [ComputeReachableNodes] returns; the set it returns contains
    the seed, is closed under the edges ([A] in the set and an edge
    [A → B] put [B] in the set), and is the least such set.  In
    [t = new X(); u = t; g = u;] the builder records the edge [u → t] and
    seeds the set with [u] alone; the closure then holds both [u] and
    [t]. *)
Theorem C1_ComputeReachableNodes_least_fixed_point :
  (∀ bitVecTraits (adjacentNodes : list BitVec) (roots : BitVec),
     in_range adjacentNodes roots →
     (∀ a b, edge adjacentNodes a b → b < length adjacentNodes) →
     ∃ R : BitVec,
       ComputeReachableNodes bitVecTraits adjacentNodes roots = Ok R ∧
       roots ⊆ R ∧
       (∀ A B, A ∈ R → edge adjacentNodes A B → B ∈ R) ∧
       (∀ S : BitVec, roots ⊆ S → closed adjacentNodes S → R ⊆ S))
  ∧ (∀ debug,
       BuildConnGraph (host debug) method_tug
         (phase method_tug true false)
       = Ok {| m_connGraphPointees := [∅; {[0]}]; m_EscapingPointers_cb := {[1]} |}
       ∧ ∃ oa, DoAnalysis (host debug) method_tug (phase method_tug true false) = Ok oa
               ∧ m_EscapingPointers oa = {[0; 1]}).
Proof.
  split.
  - intros bitVecTraits adjacentNodes roots Hroots Hedges.
    destruct (loop_in_range bitVecTraits adjacentNodes
                (S (ComputeReachableNodes_measure adjacentNodes roots roots))
                roots roots Hroots Hedges) as [R HR]; [done | lia |].
    exists R. split; [exact HR|].
    by apply ComputeReachableNodes_sound in HR.
  - intros []; (split; [vm_compute; reflexivity|]);
      eexists; (split; [vm_compute; reflexivity|]); vm_compute; reflexivity.
Qed.

Lemma C1_witness :
  ∃ R : BitVec,
    ComputeReachableNodes 2 [∅; {[0]}] {[1]} = Ok R ∧
    {[1]} ⊆ R ∧
    (∀ A B, A ∈ R → edge [∅; {[0]}] A B → B ∈ R) ∧
    (∀ S : BitVec, {[1]} ⊆ S → closed [∅; {[0]}] S → R ⊆ S).
Proof.
  apply (proj1 C1_ComputeReachableNodes_least_fixed_point 2 [∅; {[0]}] {[1]}).
  - intros x Hx. apply elem_of_singleton in Hx. subst x. simpl. lia.
  - intros a b (pointees & Hlook & Hb). destruct a as [|[|a]]; simpl in Hlook.
    + injection Hlook as <-. by apply not_elem_of_empty in Hb.
    + injection Hlook as <-. apply elem_of_singleton in Hb. subst b. simpl. lia.
    + discriminate.
Defined.

(** What [DoAnalysis] computes for a method that has locals. *)
Lemma DoAnalysis_inv J comp oa oa' :
  DoAnalysis J comp oa = Ok oa' → 0 < lvaCount comp →
  ∃ callbackData,
    BuildConnGraph J comp (set_EscapingPointers oa (MakeEmpty (m_bitVecTraits oa)))
    = Ok callbackData ∧
    ComputeReachableNodes (m_bitVecTraits oa) (m_connGraphPointees callbackData)
      (m_EscapingPointers_cb callbackData) = Ok (m_EscapingPointers oa') ∧
    m_AnalysisDone oa' = true.
Proof.
  unfold DoAnalysis. intros H Hpos.
  inv_bind H. inv_bind H. inv_bind H. injection H as <-.
  rewrite bool_decide_eq_true_2 in Hx1 by done.
  inv_bind Hx1. inv_bind Hx1. injection Hx1 as <-.
  exists x2. by repeat split.
Qed.

(** C3, as amended: after [DoAnalysis] on a method with locals, if [A] is
    in the escaping set and the connectivity graph has the edge [A → B],
    then [B] is in the escaping set: escape runs forward along an edge,
    from the pointer to its pointee. *)
Theorem C3_escape_propagates_from_pointer_to_pointee J comp oa oa' callbackData :
  DoAnalysis J comp oa = Ok oa' →
  0 < lvaCount comp →
  BuildConnGraph J comp (set_EscapingPointers oa (MakeEmpty (m_bitVecTraits oa)))
  = Ok callbackData →
  ∀ A B, A ∈ m_EscapingPointers oa' →
         edge (m_connGraphPointees callbackData) A B →
         B ∈ m_EscapingPointers oa'.
Proof.
  intros Hrun Hpos Hgraph.
  destruct (DoAnalysis_inv J comp oa oa' Hrun Hpos) as (cb & Hcb & Hreach & _).
  rewrite Hgraph in Hcb. injection Hcb as <-.
  apply ComputeReachableNodes_sound in Hreach as (_ & Hclosed & _).
  exact Hclosed.
Qed.

Lemma C3_witness :
  DoAnalysis (host true) method_tug (phase method_tug true false)
  = Ok (analysed {[0; 1]} false) ∧
  1 ∈ m_EscapingPointers (analysed {[0; 1]} false) ∧
  edge [∅; {[0]}] 1 0 ∧
  0 ∈ m_EscapingPointers (analysed {[0; 1]} false).
Proof.
  assert (DoAnalysis (host true) method_tug (phase method_tug true false)
          = Ok (analysed {[0; 1]} false)) as Hrun
    by (vm_compute; reflexivity).
  assert (0 < lvaCount method_tug) as Hpos by (vm_compute; lia).
  assert (BuildConnGraph (host true) method_tug
            (set_EscapingPointers (phase method_tug true false)
               (MakeEmpty (m_bitVecTraits (phase method_tug true false))))
          = Ok {| m_connGraphPointees := [∅; {[0]}];
                  m_EscapingPointers_cb := ({[1]} : BitVec) |}) as Hgraph
    by (vm_compute; reflexivity).
  assert (1 ∈ m_EscapingPointers (analysed {[0; 1]} false)) as H1.
  { cbn. apply elem_of_union_r. by apply elem_of_singleton. }
  assert (edge [∅; {[0]}] 1 0) as Hedge.
  { exists {[0]}. split; [reflexivity|]. by apply elem_of_singleton. }
  split; [exact Hrun|]. split; [exact H1|]. split; [exact Hedge|].
  exact (C3_escape_propagates_from_pointer_to_pointee _ _ _ _ _ Hrun Hpos Hgraph
           1 0 H1 Hedge).
Defined.

(** C3, as the claim states it, fails.  In [t = new X(); u = t; g = t;]
    the graph has the edge [u → t] and [t] is in the escaping set after
    the closure, yet [u] is not: nothing propagates from the pointee [t]
    back to the pointer [u]. *)
Lemma C3_counterexample :
  ∃ callbackData oa,
    BuildConnGraph (host true) method_ut_gt
      (set_EscapingPointers (phase method_ut_gt true false) ∅) = Ok callbackData ∧
    DoAnalysis (host true) method_ut_gt (phase method_ut_gt true false) = Ok oa ∧
    edge (m_connGraphPointees callbackData) 1 0 ∧
    0 ∈ m_EscapingPointers oa ∧
    1 ∉ m_EscapingPointers oa.
Proof.
  exists {| m_connGraphPointees := [∅; {[0]}]; m_EscapingPointers_cb := ({[0]} : BitVec) |},
         {| m_IsObjectStackAllocationEnabled := true; m_AnalysisDone := true;
            m_IsRunningAfterMorph := false; m_bitVecTraits := 2;
            m_EscapingPointers := ({[0]} : BitVec) |}.
  split; [vm_compute; reflexivity|].
  split; [vm_compute; reflexivity|]. split; [|split].
  - exists {[0]}. split; [reflexivity|]. by apply elem_of_singleton.
  - cbn. by apply elem_of_singleton.
  - cbn. intros H%elem_of_singleton. discriminate.
Qed.

(** ** Which leaves the graph builder looks at *)

(** C7 (the code departs from the claim).  [BuildConnGraph] gives every
    local of type [TYP_REF], [TYP_I_IMPL] or [TYP_BYREF] a pointee set and
    marks it when it is address-exposed, but [BuildConnGraphVisitor]
    looks only at leaves of type [TYP_REF] or [TYP_I_IMPL]: a
    [TYP_BYREF] leaf is passed over, whatever its context.  In
    [t = new X(); b = t + 8; F(b);] with [b] a managed byref, the use of
    [b] as a call argument is not recorded, the escaping set stays empty
    and [t] is put on the stack; with [b] typed as a reference the same
    use is recorded and both locals escape. *)
Theorem C7_byref_leaf_is_not_classified :
  (∀ debug fl lclNum data callbackData,
     BuildConnGraphVisitor (host debug) 2 (GenTreeLclVar TYP_BYREF fl lclNum) data
       callbackData = Ok callbackData)
  ∧ (∀ debug,
       BuildConnGraph_locals (host debug) 1
         [{| lvType := TYP_BYREF; lvAddrExposed := true; lvClassHnd := None |}] 0 ∅
       = ([∅], {[0]}))
  ∧ (∀ debug,
       ∃ oa comp,
         DoPhase (host debug) (phase (method_interior TYP_BYREF) true false)
           (method_interior TYP_BYREF) = Ok (oa, comp) ∧
         m_EscapingPointers oa = ∅ ∧
         N.land (optMethodFlags comp) (OMF_HAS_OBJSTACKALLOC (host debug))
         = OMF_HAS_OBJSTACKALLOC (host debug))
  ∧ (∀ debug,
       ∃ oa comp,
         DoPhase (host debug) (phase (method_interior TYP_REF) true false)
           (method_interior TYP_REF) = Ok (oa, comp) ∧
         m_EscapingPointers oa = {[0; 1]} ∧
         N.land (optMethodFlags comp) (OMF_HAS_OBJSTACKALLOC (host debug)) = 0%N).
Proof.
  split; [|split; [|split]].
  - intros [] fl lclNum data cb; reflexivity.
  - intros []; vm_compute; reflexivity.
  - intros []; eexists _, _; (split; [vm_compute; reflexivity|]);
      split; vm_compute; reflexivity.
  - intros []; eexists _, _; (split; [vm_compute; reflexivity|]);
      split; vm_compute; reflexivity.
Qed.

(** ** The rewriter: which blocks it visits *)

Lemma MorphAllocObjNodes_block_skip J oa comp block :
  DEBUG J = false →
  N.land (bbFlags block) (BBF_HAS_NEWOBJ J) ≠ BBF_HAS_NEWOBJ J →
  MorphAllocObjNodes_block J oa comp block = Ok (comp, block).
Proof.
  intros Hd Hf. unfold MorphAllocObjNodes_block. rewrite Hd.
  apply N.eqb_neq in Hf. rewrite Hf. reflexivity.
Qed.

Lemma MorphAllocObjNodes_blocks_skip J oa blocks : ∀ comp comp' blocks',
  DEBUG J = false →
  MorphAllocObjNodes_blocks J oa comp blocks = Ok (comp', blocks') →
  length blocks' = length blocks ∧
  ∀ i block, blocks !! i = Some block →
    N.land (bbFlags block) (BBF_HAS_NEWOBJ J) ≠ BBF_HAS_NEWOBJ J →
    blocks' !! i = Some block.
Proof.
  induction blocks as [|b rest IH]; intros comp comp' blocks' Hd H.
  - injection H as <- <-. split; [done|]. intros i block Hi. done.
  - cbn [MorphAllocObjNodes_blocks] in H.
    inv_bind H. destruct x as [comp1 b1].
    inv_bind H. destruct x as [comp2 rest2]. injection H as <- <-.
    destruct (IH _ _ _ Hd Hx0) as [Hlen Hkeep].
    split; [simpl; by rewrite Hlen|].
    intros [|i] block Hi Hf; simpl in *.
    + injection Hi as ->.
      rewrite (MorphAllocObjNodes_block_skip J oa comp block Hd Hf) in Hx.
      by injection Hx as <- <-.
    + by apply Hkeep.
Qed.

(** C10: in a build without [DEBUG], a block whose [BBF_HAS_NEWOBJ] flag
    is not set is skipped by the block loop, which leaves the compiler
    state and the block as they were; whenever the pass returns, every
    such block of the method is in the result as it was.  So
    [t = new X();] in an unflagged block keeps its [GT_ALLOCOBJ]: it is
    rewritten neither to a stack allocation nor to a helper call. *)
Theorem C10_unflagged_block_left_unchanged :
  (∀ J oa comp block,
     DEBUG J = false →
     N.land (bbFlags block) (BBF_HAS_NEWOBJ J) ≠ BBF_HAS_NEWOBJ J →
     MorphAllocObjNodes_block J oa comp block = Ok (comp, block))
  ∧ (∀ J oa comp comp',
       DEBUG J = false →
       MorphAllocObjNodes J oa comp = Ok comp' →
       ∀ i block, fgBlocks comp !! i = Some block →
         N.land (bbFlags block) (BBF_HAS_NEWOBJ J) ≠ BBF_HAS_NEWOBJ J →
         fgBlocks comp' !! i = Some block)
  ∧ (∀ enabled,
       ∃ oa, DoPhase (host false) (phase method_unflagged enabled false) method_unflagged
             = Ok (oa, method_unflagged)).
Proof.
  split; [|split].
  - intros J oa comp block. apply MorphAllocObjNodes_block_skip.
  - intros J oa comp comp' Hd H i block Hi Hf. unfold MorphAllocObjNodes in H.
    inv_bind H. destruct x as [comp1 blocks1]. injection H as <-. simpl.
    by apply (MorphAllocObjNodes_blocks_skip J oa _ _ _ _ Hd Hx).
  - intros []; eexists; vm_compute; reflexivity.
Qed.

Lemma C10_witness :
  MorphAllocObjNodes_block (host false) (phase method_unflagged true false)
    method_unflagged
    {| bbNum := 1; bbFlags := 0; bbStmts := [asgRef (lclRef 0) (newObj 5)] |}
  = Ok (method_unflagged,
        {| bbNum := 1; bbFlags := 0; bbStmts := [asgRef (lclRef 0) (newObj 5)] |}).
Proof.
  apply (proj1 C10_unflagged_block_left_unchanged (host false)).
  - reflexivity.
  - vm_compute. discriminate.
Defined.

(** ** The rewriter on a canonical statement *)

#[local] Arguments CanAllocateLclVarOnStack : simpl never.
#[local] Arguments MorphAllocObjNodeIntoStackAlloc : simpl never.
#[local] Arguments fgMorphIntoHelperCall : simpl never.
#[local] Arguments remorph : simpl never.
#[local] Arguments assert : simpl never.
#[local] Arguments or_gtFlags : simpl never.

Lemma alter_snoc {A} (f : A → A) (l : list A) (x : A) :
  alter f (length l) (l ++ [x]) = l ++ [f x].
Proof.
  replace (length l) with (length l + 0) by lia. by rewrite alter_app_r.
Qed.

Lemma lookup_snoc_last {A} (l : list A) (x : A) : (l ++ [x]) !! length l = Some x.
Proof. rewrite lookup_app_r by done. by rewrite Nat.sub_diag. Qed.

Lemma CanAllocateLclVarOnStack_done J oa lclNum clsHnd :
  m_AnalysisDone oa = true →
  CanAllocateLclVarOnStack J oa lclNum clsHnd =
  Ok (negb (bool_decide (lclNum ∈ m_EscapingPointers oa))
      && negb (classHasFinalizer J clsHnd)
      && ((if isValueClass J clsHnd then getClassSize J clsHnd
           else getHeapClassSize J clsHnd) <=? s_StackAllocMaxSize)%N).
Proof.
  intros Hdone. unfold CanAllocateLclVarOnStack, CanLclVarEscape.
  rewrite Hdone, assert_true. reflexivity.
Qed.

Lemma MorphAllocObjNodeIntoStackAlloc_done J oa comp ty fl helper clsHnd op1 :
  m_AnalysisDone oa = true →
  MorphAllocObjNodeIntoStackAlloc J oa comp (GenTreeAllocObj ty fl helper clsHnd op1) =
  Ok ({| lvaTable := lvaTable comp ++
                       [{| lvType := TYP_STRUCT; lvAddrExposed := false;
                           lvClassHnd := Some clsHnd |}];
         optMethodFlags := optMethodFlags comp;
         fgBlocks := fgBlocks comp |},
      [remorph J oa
         {| gtStmtExpr :=
              GenTreeBlk TYP_VOID 0 (GenTreeLclVar TYP_STRUCT 0 (lvaCount comp))
                (GenTreeIntCon TYP_INT 0 0) (lvaStructSize J clsHnd) false false |};
       remorph J oa
         {| gtStmtExpr :=
              GenTreeOp GT_ASG (TYP_I_IMPL J) 0
                (Some (GenTreeField (TYP_I_IMPL J) 0
                         (Some (GenTreeOp GT_ADDR TYP_BYREF 0
                                  (Some (GenTreeLclVar TYP_STRUCT 0 (lvaCount comp)))
                                  None))
                         (getObjHeaderSize J)))
                (Some op1) |}],
      GenTreeOp GT_ADD (TYP_I_IMPL J) (ChangeOperFlags J GT_ADD fl)
        (Some (GenTreeOp GT_ADDR TYP_BYREF 0
                 (Some (GenTreeLclVar TYP_STRUCT 0 (lvaCount comp))) None))
        (Some (GenTreeIntCon TYP_INT 0 (Z.of_N (getObjHeaderSize J))))).
Proof.
  intros Hdone. unfold MorphAllocObjNodeIntoStackAlloc.
  rewrite Hdone, assert_true. cbn [mbind Result_mbind Result_bind].
  unfold lvaGrabTemp, lvaSetStruct, lvaCount. cbn [lvaTable optMethodFlags fgBlocks].
  rewrite alter_snoc, lookup_snoc_last. reflexivity.
Qed.

(** What the body of the statement loop does with a canonical allocation
    statement of a flagged block. *)
Lemma MorphAllocObjNodes_stmt_canonical J oa block comp fl dstFl lclNum
    ty allocFl helper clsHnd op1 :
  basicBlockHasNewObj J block →
  (IsObjectStackAllocationEnabled oa = true → m_AnalysisDone oa = true) →
  let allocObj := GenTreeAllocObj ty allocFl helper clsHnd op1 in
  let stmtExpr :=
    GenTreeOp GT_ASG TYP_REF fl (Some (GenTreeLclVar TYP_REF dstFl lclNum))
      (Some allocObj) in
  MorphAllocObjNodes_stmt J oa block comp {| gtStmtExpr := stmtExpr |} =
  if choosesStack J oa block lclNum clsHnd then
    '(comp, inserted, op2) ← MorphAllocObjNodeIntoStackAlloc J oa comp allocObj;
    stmt ← rewrittenStmt J oa stmtExpr op2;
    Ok (set_optMethodFlags comp (N.lor (optMethodFlags comp) (OMF_HAS_OBJSTACKALLOC J)),
        inserted ++ [stmt])
  else
    stmt ← rewrittenStmt J oa stmtExpr
              (fgMorphIntoHelperCall J allocObj helper [op1] (IsRunningAfterMorph oa));
    Ok (comp, [stmt]).
Proof.
  intros Hblk Hdone allocObj stmtExpr.
  unfold MorphAllocObjNodes_stmt, choosesStack, basicBlockHasNewObj in *.
  subst stmtExpr allocObj. apply N.eqb_eq in Hblk. rewrite Hblk. cbn.
  rewrite !bool_decide_eq_true_2 by done. cbn.
  rewrite !assert_true. cbn.
  destruct (IsObjectStackAllocationEnabled oa) eqn:Hen; cbn.
  - rewrite (CanAllocateLclVarOnStack_done J oa lclNum clsHnd (Hdone eq_refl)). cbn.
    match goal with |- context [if ?c then _ else _] => destruct c eqn:Hc end; cbn.
    + rewrite (MorphAllocObjNodeIntoStackAlloc_done J oa comp _ _ _ _ _ (Hdone eq_refl)).
      cbn. unfold rewrittenStmt. cbn. by destruct (set_gtOp2 _ _).
    + unfold rewrittenStmt. cbn. by destruct (set_gtOp2 _ _).
  - unfold rewrittenStmt. cbn. by destruct (set_gtOp2 _ _).
Qed.

Lemma rewrittenStmt_Ok J oa oper ty fl op1 op2old op2 :
  keeps_operator_root J oa →
  ∃ last,
    rewrittenStmt J oa (GenTreeOp oper ty fl op1 op2old) op2 = Ok last ∧
    gtGetOp2 (gtStmtExpr last) = Some op2 ∧
    (IsRunningAfterMorph oa = false →
     last = {| gtStmtExpr :=
                 GenTreeOp oper ty (N.lor fl (N.land (gtFlagsOf op2) (GTF_ALL_EFFECT J)))
                   op1 (Some op2) |}).
Proof.
  intros Hroot. unfold rewrittenStmt, remorph. cbn.
  destruct (IsRunningAfterMorph oa) eqn:Hafter; cbn.
  - destruct (Hroot Hafter oper ty fl op1 (Some op2)) as (o & t & f & a & b & ->).
    cbn. eexists. split; [reflexivity|]. split; [reflexivity | discriminate].
  - eexists. split; [reflexivity|]. split; reflexivity.
Qed.

Lemma choosesStack_iff J oa block lclNum clsHnd :
  (IsObjectStackAllocationEnabled oa = true → m_AnalysisDone oa = true) →
  choosesStack J oa block lclNum clsHnd = true ↔
  IsObjectStackAllocationEnabled oa = true ∧
  CanAllocateLclVarOnStack J oa lclNum clsHnd = Ok true ∧
  IsPartOfCycle J (bbNum block) = false.
Proof.
  intros Hdone. unfold choosesStack.
  destruct (IsObjectStackAllocationEnabled oa) eqn:Hen.
  - rewrite (CanAllocateLclVarOnStack_done J oa lclNum clsHnd (Hdone eq_refl)).
    cbn [andb]. rewrite andb_true_iff, negb_true_iff. split.
    + intros [-> ->]. done.
    + intros (_ & [= ->] & ->). done.
  - cbn. split; [discriminate | by intros [? _]].
Qed.





(** ** Trees and the walker *)

(** Induction on trees, with the operands of a node as the smaller trees. *)
Lemma GenTree_induction (P : GenTree → Prop) :
  (∀ ty fl n, P (GenTreeLclVar ty fl n)) →
  (∀ ty fl v, P (GenTreeIntCon ty fl v)) →
  (∀ oper ty fl op1 op2,
     from_option P True op1 → from_option P True op2 →
     P (GenTreeOp oper ty fl op1 op2)) →
  (∀ ty fl obj offs, from_option P True obj → P (GenTreeField ty fl obj offs)) →
  (∀ ty fl ct hnd more objp args,
     from_option P True objp → Forall P args →
     P (GenTreeCall ty fl ct hnd more objp args)) →
  (∀ ty fl helper cls op1, P op1 → P (GenTreeAllocObj ty fl helper cls op1)) →
  (∀ ty fl dst src size v c, P dst → P src → P (GenTreeBlk ty fl dst src size v c)) →
  ∀ tree, P tree.
Proof.
  intros Hlcl Hicon Hop Hfield Hcall Halloc Hblk.
  fix IH 1. intros [ty fl n|ty fl v|oper ty fl op1 op2|ty fl obj offs
                   |ty fl ct hnd more objp args|ty fl helper cls op1
                   |ty fl dst src size v c].
  - apply Hlcl.
  - apply Hicon.
  - apply Hop; [destruct op1 as [t|] | destruct op2 as [t|]];
      simpl; [apply IH | exact I | apply IH | exact I].
  - apply Hfield. destruct obj as [t|]; simpl; [apply IH | exact I].
  - apply Hcall; [destruct objp as [t|]; simpl; [apply IH | exact I]|].
    induction args as [|a args IHargs]; constructor; [apply IH | exact IHargs].
  - apply Halloc, IH.
  - apply Hblk; apply IH.
Qed.

Lemma elem_of_concat {A} (x : A) (ls : list (list A)) :
  x ∈ concat ls ↔ ∃ l, x ∈ l ∧ l ∈ ls.
Proof.
  induction ls as [|l ls IH]; simpl.
  - split; [by intros ?%elem_of_nil | by intros (? & _ & ?%elem_of_nil)].
  - rewrite elem_of_app, IH. split.
    + intros [H|(l' & H & Hl')]; [exists l; split; [done | left] |].
      exists l'. split; [done | by right].
    + intros (l' & H & [->|Hl']%elem_of_cons); [by left | right; by exists l'].
Qed.

Lemma nodes_self tree : tree ∈ nodes tree.
Proof. destruct tree; left. Qed.

(** The nodes below an operand are nodes of the node. *)
Lemma nodes_trans x : ∀ z y, y ∈ nodes z → x ∈ nodes y → x ∈ nodes z.
Proof.
  induction z as [ty fl n|ty fl v|oper ty fl op1 op2 IH1 IH2|ty fl obj offs IH
                 |ty fl ct hnd more objp args IHo IHa|ty fl helper cls op1 IH
                 |ty fl dst src size v c IHd IHs] using GenTree_induction;
    intros y Hy Hx; cbn [nodes] in *;
    apply elem_of_cons in Hy as [->|Hy]; try done.
  - by apply elem_of_nil in Hy.
  - by apply elem_of_nil in Hy.
  - right. apply elem_of_app in Hy as [Hy|Hy]; apply elem_of_app.
    + left. destruct op1 as [t|]; [by eapply IH1 | by apply elem_of_nil in Hy].
    + right. destruct op2 as [t|]; [by eapply IH2 | by apply elem_of_nil in Hy].
  - right. destruct obj as [t|]; [by eapply IH | by apply elem_of_nil in Hy].
  - right. apply elem_of_app in Hy as [Hy|Hy]; apply elem_of_app.
    + left. destruct objp as [t|]; [by eapply IHo | by apply elem_of_nil in Hy].
    + right. apply elem_of_concat in Hy as (l & Hy & Hl).
      apply list_elem_of_fmap in Hl as (a & -> & Ha).
      apply elem_of_concat. exists (nodes a). split; [|by apply list_elem_of_fmap_2].
      rewrite Forall_forall in IHa. by eapply IHa.
  - right. by eapply IH.
  - right. apply elem_of_app in Hy as [Hy|Hy]; apply elem_of_app;
      [left; by eapply IHd | right; by eapply IHs].
Qed.

(** A property of the visitor's state that every visit inside a tree
    [root] keeps is kept by the walk of any part of [root].  A visit is
    made with the visited node on top of the stack and, below it, nodes of
    [root] that the visited node lies under. *)
Lemma fgWalkTreePreRec_inv {S} (visitor : GenTree → fgWalkData → S → Result S)
    (Inv : S → Prop) (root : GenTree) :
  (∀ tree stack use s s',
     tree ∈ nodes root →
     (∀ a, a ∈ stack → a ∈ nodes root ∧ tree ∈ nodes a) →
     Inv s →
     visitor tree {| pTree := use; parentStack := tree :: stack |} s = Ok s' →
     Inv s') →
  ∀ tree stack use s s',
    tree ∈ nodes root →
    (∀ a, a ∈ stack → a ∈ nodes root ∧ tree ∈ nodes a) →
    Inv s →
    fgWalkTreePreRec visitor stack use tree s = Ok s' →
    Inv s'.
Proof.
  intros Hvisit.
  assert (∀ tree c stack,
            tree ∈ nodes root →
            (∀ a, a ∈ stack → a ∈ nodes root ∧ tree ∈ nodes a) →
            c ∈ nodes tree →
            c ∈ nodes root ∧
            ∀ a, a ∈ Push tree stack → a ∈ nodes root ∧ c ∈ nodes a) as Hdown.
  { intros tree c stack Hroot Hstack Hc. split; [by eapply nodes_trans|].
    intros a [->|Ha]%elem_of_cons; [done|].
    destruct (Hstack a Ha) as [Ha1 Ha2]. split; [done | by eapply nodes_trans]. }
  induction tree as [ty fl n|ty fl v|oper ty fl op1 op2 IH1 IH2|ty fl obj offs IH
                    |ty fl ct hnd more objp args IHo IHa|ty fl helper cls op1 IH
                    |ty fl dst src size v c IHd IHs] using GenTree_induction;
    intros stack use s s' Hroot Hstack HInv Hwalk;
    cbn [fgWalkTreePreRec] in Hwalk; inv_bind Hwalk;
    pose proof (Hvisit _ _ _ _ _ Hroot Hstack HInv Hx) as HInv1.
  - by injection Hwalk as <-.
  - by injection Hwalk as <-.
  - inv_bind Hwalk.
    assert (Inv x0) as HInv2.
    { destruct op1 as [t|]; [|by injection Hx0 as <-].
      destruct (Hdown _ t stack Hroot Hstack) as [Ht1 Ht2].
      { cbn [nodes]. right. apply elem_of_app. left. apply nodes_self. }
      by eapply (IH1 _ _ _ _ Ht1 Ht2 HInv1). }
    destruct op2 as [t|]; [|by injection Hwalk as <-].
    destruct (Hdown _ t stack Hroot Hstack) as [Ht1 Ht2].
    { cbn [nodes]. right. apply elem_of_app. right. apply nodes_self. }
    by eapply (IH2 _ _ _ _ Ht1 Ht2 HInv2).
  - destruct obj as [t|]; [|by injection Hwalk as <-].
    destruct (Hdown _ t stack Hroot Hstack) as [Ht1 Ht2].
    { cbn [nodes]. right. apply nodes_self. }
    by eapply (IH _ _ _ _ Ht1 Ht2 HInv1).
  - inv_bind Hwalk.
    assert (Inv x0) as HInv2.
    { destruct objp as [t|]; [|by injection Hx0 as <-].
      destruct (Hdown _ t stack Hroot Hstack) as [Ht1 Ht2].
      { cbn [nodes]. right. apply elem_of_app. left. apply nodes_self. }
      by eapply (IHo _ _ _ _ Ht1 Ht2 HInv1). }
    assert (Forall (λ c, ∀ use s s', Inv s →
                      fgWalkTreePreRec visitor
                        (Push (GenTreeCall ty fl ct hnd more objp args) stack) use c s
                      = Ok s' → Inv s') args) as Hargs.
    { apply Forall_forall. intros c Hc use' s1 s1' Hs1 Hw.
      rewrite Forall_forall in IHa.
      destruct (Hdown _ c stack Hroot Hstack) as [Ht1 Ht2].
      { cbn [nodes]. right. apply elem_of_app. right.
        apply elem_of_concat. exists (nodes c).
        split; [apply nodes_self | by apply list_elem_of_fmap_2]. }
      by eapply (IHa c Hc _ _ _ _ Ht1 Ht2 Hs1). }
    unfold Push in Hargs, Hwalk.
    set (stk := GenTreeCall ty fl ct hnd more objp args :: stack) in *.
    clearbody stk. clear IHa IHo Hx0 HInv1 Hx Hroot Hstack.
    revert Hwalk HInv2 Hargs. generalize 0 x0.
    induction args as [|arg rest IHrest]; intros i s0 Hwalk HInv2 Hargs.
    + by injection Hwalk as <-.
    + inv_bind Hwalk. apply Forall_cons in Hargs as [Harg Hargs].
      eapply (IHrest _ _ Hwalk); [|done].
      by eapply Harg.
  - destruct (Hdown _ op1 stack Hroot Hstack) as [Ht1 Ht2].
    { cbn [nodes]. right. apply nodes_self. }
    by eapply (IH _ _ _ _ Ht1 Ht2 HInv1).
  - inv_bind Hwalk.
    destruct (Hdown _ dst stack Hroot Hstack) as [Hd1 Hd2].
    { cbn [nodes]. right. apply elem_of_app. left. apply nodes_self. }
    destruct (Hdown _ src stack Hroot Hstack) as [Hs1 Hs2].
    { cbn [nodes]. right. apply elem_of_app. right. apply nodes_self. }
    eapply (IHs _ _ _ _ Hs1 Hs2); [|exact Hwalk].
    by eapply (IHd _ _ _ _ Hd1 Hd2 HInv1).
Qed.

(** ** Which edges the builder records *)

Lemma GetLclNum_Ok tree lclNum :
  GetLclNum tree = Ok lclNum → ∃ ty fl, tree = GenTreeLclVar ty fl lclNum.
Proof. destruct tree; try discriminate. intros [= <-]. eauto. Qed.

Lemma deref_Ok {A} (p : option A) (a : A) : deref p = Ok a → p = Some a.
Proof. destruct p; [by intros [= <-] | discriminate]. Qed.

(** Recording an edge adds that edge and no other, and touches neither
    the length of the array nor the escaping set; it succeeds whenever
    the pointer's number indexes the array, whatever the build. *)
Lemma SetPointerPointeeRel_Ok bitVecTraits cb p q cb' :
  SetPointerPointeeRel bitVecTraits cb p q = Ok cb' →
  (∀ a b, edge (m_connGraphPointees cb') a b ↔
          edge (m_connGraphPointees cb) a b ∨ (a = p ∧ b = q)) ∧
  length (m_connGraphPointees cb') = length (m_connGraphPointees cb) ∧
  m_EscapingPointers_cb cb' = m_EscapingPointers_cb cb.
Proof.
  unfold SetPointerPointeeRel. intros H. inv_bind H. apply deref_Ok in Hx.
  injection H as <-. cbn. split; [|split; [apply length_insert | done]].
  intros a b. unfold edge, AddElemD. destruct (decide (a = p)) as [->|Hne].
  - rewrite list_lookup_insert_eq by by eapply lookup_lt_Some. split.
    + intros (S & [= <-] & [Hb|Hb%elem_of_singleton]%elem_of_union); [left|by right].
      by exists x.
    + intros [(S & HS & Hb)|[_ ->]]; eexists; (split; [reflexivity|]).
      * rewrite Hx in HS. injection HS as <-. by apply elem_of_union_l.
      * apply elem_of_union_r. by apply elem_of_singleton.
  - rewrite list_lookup_insert_ne by done. split; [by left|].
    by intros [?|[? _]].
Qed.

Lemma BuildConnGraphVisitor_edges J bitVecTraits root tree stack use cb cb' :
  (∀ a, a ∈ stack → a ∈ nodes root ∧ tree ∈ nodes a) →
  BuildConnGraphVisitor J bitVecTraits tree
    {| pTree := use; parentStack := tree :: stack |} cb = Ok cb' →
  ∀ p q, edge (m_connGraphPointees cb') p q →
         edge (m_connGraphPointees cb) p q ∨
         ∃ asg, asg ∈ nodes root ∧ assignsFrom J asg p q.
Proof.
  intros Hstack H p q.
  assert (∀ asg op1 lclNum pointerLclNum cb0,
            asg ∈ stack → OperGet asg = GT_ASG → gtGetOp1 asg = Some op1 →
            GetLclNum op1 = Ok pointerLclNum →
            GetLclNum tree = Ok lclNum →
            bool_decide (TypeGet tree = TYP_REF)
            || bool_decide (TypeGet tree = TYP_I_IMPL J) = true →
            SetPointerPointeeRel bitVecTraits cb pointerLclNum lclNum = Ok cb0 →
            edge (m_connGraphPointees cb0) p q →
            edge (m_connGraphPointees cb) p q ∨
            ∃ asg, asg ∈ nodes root ∧ assignsFrom J asg p q) as Hrecord.
  { intros asg op1 lclNum pointerLclNum cb0 Hin Hasg Hop1 Hp Hq Hty Hset Hedge.
    apply SetPointerPointeeRel_Ok in Hset as (Hset & _ & _).
    apply Hset in Hedge as [?|[-> ->]]; [by left|]. right.
    destruct (Hstack asg Hin) as [Hroot Hbelow].
    apply GetLclNum_Ok in Hp as (ty1 & fl1 & ->).
    apply GetLclNum_Ok in Hq as (ty & fl & ->).
    exists asg. split; [done|]. split; [done|]. split; [by eauto|].
    exists (GenTreeLclVar ty fl lclNum). split; [done|]. exists ty, fl.
    split; [done|]. cbn in Hty.
    apply orb_true_iff in Hty as [Hty|Hty]; apply bool_decide_eq_true in Hty; eauto. }
  assert (∀ cb1 cb0, m_connGraphPointees cb1 = m_connGraphPointees cb →
            Ok cb1 = Ok cb0 → edge (m_connGraphPointees cb0) p q →
            edge (m_connGraphPointees cb) p q ∨
            ∃ asg, asg ∈ nodes root ∧ assignsFrom J asg p q) as Hsame.
  { intros cb1 cb0 Heq [= <-] Hedge. rewrite Heq in Hedge. by left. }
  unfold BuildConnGraphVisitor, parent in H. cbn [parentStack pTree] in H.
  destruct (bool_decide (OperGet tree = GT_LCL_VAR)); cbn [andb] in H;
    [|(eapply Hsame; [|exact H]; reflexivity)].
  destruct (bool_decide (TypeGet tree = TYP_REF) || bool_decide (TypeGet tree = TYP_I_IMPL J))
    eqn:Hty; [|(eapply Hsame; [|exact H]; reflexivity)].
  inv_bind H. rename x into lclNum, Hx into HlclNum.
  inv_bind H. apply deref_Ok in Hx. change ((tree :: stack) !! 1) with (stack !! 0) in Hx.
  pose proof (list_elem_of_lookup_2 _ _ _ Hx) as Hparent.
  case_bool_decide as Hasg.
  - destruct (negb (bool_decide (use = UseOp1))); [|(eapply Hsame; [|exact H]; reflexivity)].
    inv_bind H. inv_bind H. apply deref_Ok in Hx1.
    case_bool_decide; [|(eapply Hsame; [|exact H]; reflexivity)].
    inv_bind H. intros Hedge. by eapply (Hrecord x x1 lclNum x2 cb').
  - case_bool_decide as Hadd.
    + inv_bind H. apply deref_Ok in Hx0.
      change ((tree :: stack) !! 2) with (stack !! 1) in Hx0.
      pose proof (list_elem_of_lookup_2 _ _ _ Hx0) as Hgrand.
      case_bool_decide as Hasg2.
      * inv_bind H. apply deref_Ok in Hx1.
        case_bool_decide; [|(eapply Hsame; [|exact H]; reflexivity)].
        inv_bind H. intros Hedge. by eapply (Hrecord x0 x1 lclNum x2 cb').
      * inv_bind H. destruct x1; (eapply Hsame; [|exact H]; reflexivity).
    + inv_bind H. destruct x0; (eapply Hsame; [|exact H]; reflexivity).
Qed.

(** The first loop of [BuildConnGraph] gives one slot per local and
    leaves every slot without a pointee. *)
Lemma BuildConnGraph_locals_spec J bitVecTraits lvaTable : ∀ lclNum escaping,
  let '(pointees, escaping') :=
    BuildConnGraph_locals J bitVecTraits lvaTable lclNum escaping in
  length pointees = length lvaTable ∧
  (∀ a b, ¬ edge pointees a b) ∧
  (∀ x, x ∈ escaping' ↔
        x ∈ escaping ∨
        ∃ dsc, lvaTable !! (x - lclNum) = Some dsc ∧ lclNum ≤ x ∧
               participates J (lvType dsc) = true ∧ lvAddrExposed dsc = true).
Proof.
  induction lvaTable as [|dsc rest IH]; intros lclNum escaping.
  - cbn. split; [done|]. split.
    + intros a b (S & HS & _). by rewrite lookup_nil in HS.
    + intros x. split; [by left|]. intros [?|(? & H & _)]; [done|].
      by rewrite lookup_nil in H.
  - cbn [BuildConnGraph_locals]. fold (participates J (lvType dsc)). unfold AddElemD.
    destruct (participates J (lvType dsc)) eqn:Hpart.
    + specialize (IH (S lclNum)
                    (if lvAddrExposed dsc then escaping ∪ {[lclNum]} else escaping)).
      destruct (BuildConnGraph_locals J bitVecTraits rest (S lclNum) _) as [g e].
      destruct IH as (Hlen & Hno & Hesc). split; [simpl; by rewrite Hlen|]. split.
      * intros [|a] b (S & HS & Hb); cbn in HS.
        -- injection HS as <-. unfold MakeEmpty in Hb. set_solver.
        -- apply (Hno a b). by exists S.
      * intros x. rewrite Hesc. clear Hesc. split.
        -- intros [Hx|(d & Hd & Hle & Hp & Hexp)].
           ++ destruct (lvAddrExposed dsc) eqn:Hexp; [|by left].
              apply elem_of_union in Hx as [Hx|Hx%elem_of_singleton]; [by left|].
              subst x. right. exists dsc. rewrite Nat.sub_diag. by repeat split.
           ++ right. exists d. replace (x - lclNum) with (S (x - S lclNum)) by lia.
              repeat split; [done | lia | done | done].
        -- intros [Hx|(d & Hd & Hle & Hp & Hexp)].
           ++ left. destruct (lvAddrExposed dsc); [by apply elem_of_union_l | done].
           ++ destruct (decide (x = lclNum)) as [->|Hne].
              ** rewrite Nat.sub_diag in Hd. injection Hd as <-. left.
                 rewrite Hexp. apply elem_of_union_r. by apply elem_of_singleton.
              ** right. exists d.
                 replace (x - lclNum) with (S (x - S lclNum)) in Hd by lia.
                 repeat split; [done | lia | done | done].
    + specialize (IH (S lclNum) escaping).
      destruct (BuildConnGraph_locals J bitVecTraits rest (S lclNum) _) as [g e].
      destruct IH as (Hlen & Hno & Hesc). split; [simpl; by rewrite Hlen|]. split.
      * intros [|a] b (S & HS & Hb); cbn in HS.
        -- injection HS as <-. unfold UninitVal in Hb. set_solver.
        -- apply (Hno a b). by exists S.
      * intros x. rewrite Hesc. clear Hesc. split.
        -- intros [Hx|(d & Hd & Hle & Hp & Hexp)]; [by left|].
           right. exists d. replace (x - lclNum) with (S (x - S lclNum)) by lia.
           repeat split; [done | lia | done | done].
        -- intros [Hx|(d & Hd & Hle & Hp & Hexp)]; [by left|].
           destruct (decide (x = lclNum)) as [->|Hne].
           ** rewrite Nat.sub_diag in Hd. injection Hd as <-. congruence.
           ** right. exists d.
              replace (x - lclNum) with (S (x - S lclNum)) in Hd by lia.
              repeat split; [done | lia | done | done].
Qed.

Lemma BuildConnGraph_stmts_edges J bitVecTraits comp stmts : ∀ cb cb',
  (∀ stmt, stmt ∈ stmts → stmt ∈ stmtsOf comp) →
  (∀ p q, edge (m_connGraphPointees cb) p q → methodAssignsFrom J comp p q) →
  BuildConnGraph_stmts J bitVecTraits stmts cb = Ok cb' →
  ∀ p q, edge (m_connGraphPointees cb') p q → methodAssignsFrom J comp p q.
Proof.
  induction stmts as [|stmt rest IH]; intros cb cb' Hin Hinv H.
  - by injection H as <-.
  - cbn [BuildConnGraph_stmts] in H. inv_bind H.
    eapply (IH x cb'); [intros s Hs; apply Hin; by right| |exact H].
    unfold fgWalkTreePre in Hx.
    eapply (fgWalkTreePreRec_inv (BuildConnGraphVisitor J bitVecTraits)
              (λ cb, ∀ p q, edge (m_connGraphPointees cb) p q →
                            methodAssignsFrom J comp p q)
              (gtStmtExpr stmt)); [| | |exact Hinv|exact Hx].
    + intros tree stack use s s' Htree Hstack Hs Hvisit p q Hedge.
      destruct (BuildConnGraphVisitor_edges J bitVecTraits (gtStmtExpr stmt) tree stack
                  use s s' Hstack Hvisit p q Hedge) as [Hold|(asg & Hasg & Hfrom)].
      * by apply Hs.
      * exists stmt, asg. split; [apply Hin; by left | done].
    + apply nodes_self.
    + intros a Ha. by apply elem_of_nil in Ha.
Qed.

Lemma BuildConnGraph_blocks_edges J bitVecTraits comp blocks : ∀ cb cb',
  (∀ block, block ∈ blocks → block ∈ fgBlocks comp) →
  (∀ p q, edge (m_connGraphPointees cb) p q → methodAssignsFrom J comp p q) →
  BuildConnGraph_blocks J bitVecTraits blocks cb = Ok cb' →
  ∀ p q, edge (m_connGraphPointees cb') p q → methodAssignsFrom J comp p q.
Proof.
  induction blocks as [|block rest IH]; intros cb cb' Hin Hinv H.
  - by injection H as <-.
  - cbn [BuildConnGraph_blocks] in H. inv_bind H.
    eapply (IH x cb'); [intros b Hb; apply Hin; by right| |exact H].
    eapply (BuildConnGraph_stmts_edges J bitVecTraits comp (bbStmts block) cb x);
      [|exact Hinv|exact Hx].
    intros stmt Hstmt. unfold stmtsOf. apply elem_of_concat. exists (bbStmts block).
    split; [done|]. apply list_elem_of_fmap_2. apply Hin. by left.
Qed.

(** Every edge of the graph [BuildConnGraph] returns comes from an
    assignment of the method. *)
Lemma BuildConnGraph_edges J comp oa cb :
  BuildConnGraph J comp oa = Ok cb →
  ∀ p q, edge (m_connGraphPointees cb) p q → methodAssignsFrom J comp p q.
Proof.
  unfold BuildConnGraph. intros H.
  pose proof (BuildConnGraph_locals_spec J (m_bitVecTraits oa) (lvaTable comp) 0
                (m_EscapingPointers oa)) as Hinit.
  destruct (BuildConnGraph_locals J (m_bitVecTraits oa) (lvaTable comp) 0 _) as [g e].
  destruct Hinit as (_ & Hno & _).
  eapply (BuildConnGraph_blocks_edges J _ comp (fgBlocks comp)); [done| |exact H].
  intros p q Hedge. cbn in Hedge. by apply Hno in Hedge.
Qed.



